(** * QPy gate-composition engine: a shallow embedding of [qpy/gates.py]

    The Python module builds dense operators on an n-qubit register out of
    NumPy arrays.  Arrays are modelled as nested lists with the shape NumPy
    derives from them; Python integers are [Z]; a raised exception is a value
    of [exn] carried by [result].  Scalars are the elements of an arbitrary
    commutative ring with a conjugation, so every statement holds for exact
    complex arithmetic (the dtype distinction int / float / complex of the
    backend is not represented).

    Embedded from the source: [kron], [add_gate], [control_gate], the
    constants [zero], [one], [I], [X], [H], [cnot], and [cnot_adj],
    [cnot_nonadj], [generate_ghz_state], [TOFFOLI].  The NumPy primitives
    they call ([np.kron], [+], [@], [np.outer], [np.eye], scaling) are
    modelled on arrays of dimension 0, 1 and 2. *)

From Stdlib Require Import String.
From Stdlib Require Import ZArith List Arith Lia Ring Bool.
Import ListNotations.

Set Implicit Arguments.

(** ** Scalars *)

Class Scalars (C : Type) := {
  c0 : C;
  c1 : C;
  cadd : C -> C -> C;
  cmul : C -> C -> C;
  csub : C -> C -> C;
  copp : C -> C;
  cconj : C -> C;
  scalars_ring : ring_theory c0 c1 cadd cmul csub copp (@eq C);
  cconj_add : forall x y, cconj (cadd x y) = cadd (cconj x) (cconj y);
  cconj_mul : forall x y, cconj (cmul x y) = cmul (cconj x) (cconj y);
  cconj_1 : cconj c1 = c1
}.

Declare Scope scalar_scope.
Delimit Scope scalar_scope with C.
Notation "0" := c0 : scalar_scope.
Notation "1" := c1 : scalar_scope.
Infix "+" := cadd : scalar_scope.
Infix "*" := cmul : scalar_scope.
Infix "-" := csub : scalar_scope.
Notation "- x" := (copp x) : scalar_scope.

(** The scalar the backend returns for the expression [1/np.sqrt(2)].
    Nothing is assumed about it. *)
Class InvSqrt2 (C : Type) := inv_sqrt2 : C.

(** Gaussian integers: a concrete, computable instance of [Scalars]. *)
Definition gauss : Type := (Z * Z)%type.

Definition gauss_add (x y : gauss) : gauss := (fst x + fst y, snd x + snd y)%Z.
Definition gauss_mul (x y : gauss) : gauss :=
  (fst x * fst y - snd x * snd y, fst x * snd y + snd x * fst y)%Z.
Definition gauss_opp (x : gauss) : gauss := (- fst x, - snd x)%Z.
Definition gauss_sub (x y : gauss) : gauss := gauss_add x (gauss_opp y).
Definition gauss_conj (x : gauss) : gauss := (fst x, - snd x)%Z.

Lemma gauss_ring :
  ring_theory (0, 0)%Z (1, 0)%Z gauss_add gauss_mul gauss_sub gauss_opp (@eq gauss).
Proof.
  constructor; intros;
    repeat match goal with x : (Z * Z)%type |- _ => destruct x end;
    unfold gauss_sub, gauss_add, gauss_mul, gauss_opp; cbn [fst snd]; apply f_equal2; ring.
Qed.

#[export] Instance gauss_scalars : Scalars gauss.
Proof.
  refine {| c0 := (0, 0)%Z; c1 := (1, 0)%Z;
            cadd := gauss_add; cmul := gauss_mul; csub := gauss_sub;
            copp := gauss_opp; cconj := gauss_conj;
            scalars_ring := gauss_ring |}.
  - intros [a b] [c d]; unfold gauss_conj, gauss_add; cbn [fst snd]; apply f_equal2; ring.
  - intros [a b] [c d]; unfold gauss_conj, gauss_mul; cbn [fst snd]; apply f_equal2; ring.
  - reflexivity.
Defined.

(** ** Exceptions *)

Inductive exn : Type :=
| ValueError (msg : string)
| IndexError (msg : string)
| UnboundLocalError (msg : string).

Inductive result (A : Type) : Type :=
| OK (a : A)
| Raise (e : exn).

Arguments OK {A} a.
Arguments Raise {A} e.

Definition bind {A B : Type} (r : result A) (k : A -> result B) : result B :=
  match r with
  | OK a => k a
  | Raise e => Raise e
  end.

Notation "x <- r ;; k" := (bind r (fun x => k))
  (at level 61, r at next level, right associativity).

(** [[x] * k] on Python lists: a non-positive count gives the empty list. *)
Definition py_repeat {A : Type} (x : A) (k : Z) : list A := repeat x (Z.to_nat k).

(** [sorted([a, b])] *)
Definition sorted2 (a b : Z) : Z * Z := if (a <=? b)%Z then (a, b) else (b, a).

Section Engine.

Context {C : Type} {SC : Scalars C}.


(** ** Dense 2-D data: a list of rows *)

Definition matrix : Type := list (list C).

Definition nrows (m : matrix) : nat := length m.
Definition ncols (m : matrix) : nat := length (hd [] m).
Definition get (m : matrix) (i j : nat) : C := nth j (nth i m []) 0%C.

(** The [r] x [c] array whose entry [(i, j)] is [f i j]. *)
Definition mat (r c : nat) (f : nat -> nat -> C) : matrix :=
  map (fun i => map (f i) (seq 0 c)) (seq 0 r).

Fixpoint sum_to (n : nat) (f : nat -> C) : C :=
  match n with
  | O => 0%C
  | S k => (sum_to k f + f k)%C
  end.

(** Kronecker product of 2-D data: block [(i, j)] of the result is
    [a[i][j] * b]. *)
Definition kron2 (a b : matrix) : matrix :=
  mat (nrows a * nrows b) (ncols a * ncols b)
      (fun i j => (get a (i / nrows b) (j / ncols b)
                   * get b (i mod nrows b) (j mod ncols b))%C).

(** Matrix product. *)
Definition mul2 (a b : matrix) : matrix :=
  mat (nrows a) (ncols b)
      (fun i j => sum_to (ncols a) (fun k => (get a i k * get b k j)%C)).

(** One axis of NumPy broadcasting: equal lengths, or one of them is 1. *)
Definition bdim (x y : nat) : option nat :=
  if x =? y then Some x
  else if x =? 1 then Some y
  else if y =? 1 then Some x
  else None.

Definition bidx (len i : nat) : nat := if len =? 1 then 0 else i.

Definition add2 (a b : matrix) : option matrix :=
  match bdim (nrows a) (nrows b), bdim (ncols a) (ncols b) with
  | Some r, Some c =>
      Some (mat r c (fun i j =>
              (get a (bidx (nrows a) i) (bidx (ncols a) j)
               + get b (bidx (nrows b) i) (bidx (ncols b) j))%C))
  | _, _ => None
  end.

(** ** NumPy arrays of dimension 0, 1 and 2 *)

Inductive ndarray : Type :=
| Arr0 (x : C)
| Arr1 (v : list C)
| Arr2 (m : matrix).

Definition ndim (a : ndarray) : nat :=
  match a with
  | Arr0 _ => 0
  | Arr1 _ => 1
  | Arr2 _ => 2
  end.

(** Promotion to two dimensions by prepending axes of length 1. *)
Definition as2d (a : ndarray) : matrix :=
  match a with
  | Arr0 x => [[x]]
  | Arr1 v => [v]
  | Arr2 m => m
  end.

(** The inverse of [as2d] at a given number of dimensions. *)
Definition of2d (d : nat) (m : matrix) : ndarray :=
  match d with
  | 0 => Arr0 (get m 0 0)
  | 1 => Arr1 (hd [] m)
  | _ => Arr2 m
  end.

Definition shape (a : ndarray) : list nat :=
  match a with
  | Arr0 _ => []
  | Arr1 v => [length v]
  | Arr2 m => [nrows m; ncols m]
  end.

(** [np.kron]: the smaller operand is promoted, the result has the larger
    number of dimensions.  It never raises. *)
Definition np_kron (a b : ndarray) : ndarray :=
  of2d (Nat.max (ndim a) (ndim b)) (kron2 (as2d a) (as2d b)).

(** [a + b] with broadcasting. *)
Definition np_add (a b : ndarray) : result ndarray :=
  match add2 (as2d a) (as2d b) with
  | Some m => OK (of2d (Nat.max (ndim a) (ndim b)) m)
  | None => Raise (ValueError "operands could not be broadcast together"%string)
  end.

(** [a @ b] *)
Definition np_matmul (a b : ndarray) : result ndarray :=
  match a, b with
  | Arr2 m, Arr2 p =>
      if ncols m =? nrows p then OK (Arr2 (mul2 m p))
      else Raise (ValueError "matmul: mismatch in core dimension"%string)
  | Arr2 m, Arr1 v =>
      if ncols m =? length v
      then OK (Arr1 (map (fun i => sum_to (ncols m) (fun k => (get m i k * nth k v 0)%C))
                         (seq 0 (nrows m))))
      else Raise (ValueError "matmul: mismatch in core dimension"%string)
  | Arr1 v, Arr2 p =>
      if length v =? nrows p
      then OK (Arr1 (map (fun j => sum_to (length v) (fun k => (nth k v 0 * get p k j)%C))
                         (seq 0 (ncols p))))
      else Raise (ValueError "matmul: mismatch in core dimension"%string)
  | Arr1 u, Arr1 v =>
      if length u =? length v
      then OK (Arr0 (sum_to (length u) (fun k => (nth k u 0 * nth k v 0)%C)))
      else Raise (ValueError "matmul: mismatch in core dimension"%string)
  | _, _ => Raise (ValueError "matmul: operand does not have enough dimensions"%string)
  end.

(** [np.outer]: both operands are flattened first. *)
Definition ravel (a : ndarray) : list C :=
  match a with
  | Arr0 x => [x]
  | Arr1 v => v
  | Arr2 m => concat m
  end.

Definition np_outer (a b : ndarray) : ndarray :=
  Arr2 (mat (length (ravel a)) (length (ravel b))
            (fun i j => (nth i (ravel a) 0 * nth j (ravel b) 0)%C)).

(** [np.eye(n)] *)
Definition np_eye (n : nat) : ndarray :=
  Arr2 (mat n n (fun i j => if i =? j then 1%C else 0%C)).

(** [s * a] for a scalar [s]. *)
Definition np_scale (s : C) (a : ndarray) : ndarray :=
  match a with
  | Arr0 x => Arr0 (s * x)%C
  | Arr1 v => Arr1 (map (cmul s) v)
  | Arr2 m => Arr2 (map (map (cmul s)) m)
  end.

(** ** gates.py *)

(** [kron(operators)]: [operators[0]] raises on the empty list; the loop is
    a left fold of [np.kron] over [operators[1:]]. *)
Definition kron (operators : list ndarray) : result ndarray :=
  match operators with
  | [] => Raise (IndexError "list index out of range"%string)
  | first :: rest => OK (fold_left np_kron rest first)
  end.

Definition zero : ndarray := Arr1 [1; 0]%C.
Definition one : ndarray := Arr1 [0; 1]%C.
Definition I : ndarray := np_eye 2.

Definition X : ndarray := Arr2 [[0; 1]; [1; 0]]%C.

Definition H {S2 : InvSqrt2 C} : ndarray :=
  np_scale inv_sqrt2 (Arr2 [[1; 1]; [1; - (1)]]%C).

Definition cnot : ndarray :=
  Arr2 [[1; 0; 0; 0];
        [0; 1; 0; 0];
        [0; 0; 0; 1];
        [0; 0; 1; 0]]%C.

Definition add_gate (gate : ndarray) (targetq num_qubits : Z) : result ndarray :=
  let start_pad := targetq in
  let end_pad := (num_qubits - (targetq + 1))%Z in
  kron (py_repeat I start_pad ++ [gate] ++ py_repeat I end_pad).

Definition control_gate (gate : ndarray) (control_qubit target_qubit num_qubits : Z)
  : result ndarray :=
  if (control_qubit =? target_qubit)%Z
  then Raise (ValueError "Control and Target qubits must be different."%string)
  else if negb ((0 <=? control_qubit)%Z && (control_qubit <=? num_qubits)%Z)
          || negb ((0 <=? target_qubit)%Z && (target_qubit <=? num_qubits)%Z)
  then Raise (ValueError "Error"%string)
  else if (control_qubit <? target_qubit)%Z
  then
    a <- add_gate (np_outer zero zero) control_qubit num_qubits ;;
    b <- kron (py_repeat I control_qubit ++ [np_outer one one]
               ++ py_repeat I (target_qubit - control_qubit - 1) ++ [gate]
               ++ py_repeat I (num_qubits - target_qubit - 1)) ;;
    np_add a b
  else
    a <- add_gate (np_outer zero zero) control_qubit num_qubits ;;
    b <- kron (py_repeat I target_qubit ++ [gate]
               ++ py_repeat I (control_qubit - target_qubit - 1) ++ [np_outer one one]
               ++ py_repeat I (num_qubits - control_qubit - 1)) ;;
    np_add a b.

Definition cnot_adj (controlq targetq num_qubits : Z) : result ndarray :=
  if negb (targetq =? controlq + 1)%Z
  then Raise (ValueError "Control and Target qubits must be adjacent."%string)
  else
    let start_padding := controlq in
    let end_padding := (num_qubits - (targetq + 1))%Z in
    kron (py_repeat I start_padding ++ [cnot] ++ py_repeat I end_padding).

Definition cnot_nonadj (control_qubit target_qubit num_qubits : Z) : result ndarray :=
  if (control_qubit =? target_qubit)%Z
  then Raise (ValueError "Control and Target qubits must be different."%string)
  else if negb ((0 <=? control_qubit)%Z && (control_qubit <=? num_qubits)%Z)
          || negb ((0 <=? target_qubit)%Z && (target_qubit <=? num_qubits)%Z)
  then Raise (ValueError "Error"%string)
  else if (control_qubit <? target_qubit)%Z
  then
    a <- kron (py_repeat I control_qubit ++ [np_outer zero zero]
               ++ py_repeat I (num_qubits - control_qubit - 1)) ;;
    b <- kron (py_repeat I control_qubit ++ [np_outer one one]
               ++ py_repeat I (target_qubit - control_qubit - 1) ++ [X]
               ++ py_repeat I (num_qubits - target_qubit - 1)) ;;
    np_add a b
  else
    a <- kron (py_repeat I control_qubit ++ [np_outer zero zero]
               ++ py_repeat I (num_qubits - control_qubit - 1)) ;;
    b <- kron (py_repeat I target_qubit ++ [X]
               ++ py_repeat I (control_qubit - target_qubit - 1) ++ [np_outer one one]
               ++ py_repeat I (num_qubits - control_qubit - 1)) ;;
    np_add a b.

(** [range(n)] *)
Definition py_range (n : Z) : list Z := map Z.of_nat (seq 0 (Z.to_nat n)).

(** The body of the [for] loop of [generate_ghz_state], over the remaining
    values of [i]. *)
Fixpoint ghz_loop (num_qubits : Z) (idx : list Z) (ghz_state : ndarray)
  : result ndarray :=
  match idx with
  | [] => OK ghz_state
  | i :: rest =>
      op <- cnot_adj i (i + 1) num_qubits ;;
      ghz_state' <- np_matmul op ghz_state ;;
      ghz_loop num_qubits rest ghz_state'
  end.

Definition generate_ghz_state {S2 : InvSqrt2 C} (num_qubits : Z) : result ndarray :=
  ghz_state <- kron (py_repeat zero num_qubits) ;;
  h <- add_gate H 0 num_qubits ;;
  ghz_state <- np_matmul h ghz_state ;;
  ghz_loop num_qubits (py_range (num_qubits - 1)) ghz_state.

Definition in_range (q num_qubits : Z) : bool :=
  ((0 <=? q) && (q <=? num_qubits - 1))%Z.

Definition TOFFOLI (control1 control2 target num_qubits : Z) : result ndarray :=
  if (control1 =? target)%Z || (control2 =? target)%Z
  then Raise (ValueError "Control and Target qubits must be different."%string)
  else if negb (in_range control1 num_qubits) || negb (in_range target num_qubits)
          || negb (in_range control2 num_qubits)
  then Raise (ValueError "Control and target qubits must be within range"%string)
  else
  let (c1, c2) := sorted2 control1 control2 in
  if (c2 <? target)%Z then
    term1 <- kron (py_repeat I c1 ++ [np_outer zero zero]
                   ++ py_repeat I (c2 - c1 - 1) ++ [np_outer zero zero]
                   ++ py_repeat I (target - c2 - 1) ++ [I]
                   ++ py_repeat I (num_qubits - target - 1)) ;;
    term2 <- kron (py_repeat I c1 ++ [np_outer one one]
                   ++ py_repeat I (c2 - c1 - 1) ++ [np_outer zero zero]
                   ++ py_repeat I (target - c2 - 1) ++ [I]
                   ++ py_repeat I (num_qubits - target - 1)) ;;
    term3 <- kron (py_repeat I c1 ++ [np_outer zero zero]
                   ++ py_repeat I (c2 - c1 - 1) ++ [np_outer one one]
                   ++ py_repeat I (target - c2 - 1) ++ [I]
                   ++ py_repeat I (num_qubits - target - 1)) ;;
    term4 <- kron (py_repeat I c1 ++ [np_outer one one]
                   ++ py_repeat I (c2 - c1 - 1) ++ [np_outer one one]
                   ++ py_repeat I (target - c2 - 1) ++ [X]
                   ++ py_repeat I (num_qubits - target - 1)) ;;
    s12 <- np_add term1 term2 ;;
    s123 <- np_add s12 term3 ;;
    np_add s123 term4
  else if ((c1 <? target) && (target <? c2))%Z then
    term1 <- kron (py_repeat I c1 ++ [np_outer zero zero]
                   ++ py_repeat I (target - c1 - 1) ++ [I]
                   ++ py_repeat I (c2 - target - 1) ++ [np_outer zero zero]
                   ++ py_repeat I (num_qubits - c2 - 1)) ;;
    term2 <- kron (py_repeat I c1 ++ [np_outer one one]
                   ++ py_repeat I (target - c1 - 1) ++ [I]
                   ++ py_repeat I (c2 - target - 1) ++ [np_outer zero zero]
                   ++ py_repeat I (num_qubits - c2 - 1)) ;;
    term3 <- kron (py_repeat I c1 ++ [np_outer zero zero]
                   ++ py_repeat I (target - c1 - 1) ++ [I]
                   ++ py_repeat I (c2 - target - 1) ++ [np_outer one one]
                   ++ py_repeat I (num_qubits - c2 - 1)) ;;
    term4 <- kron (py_repeat I c1 ++ [np_outer one one]
                   ++ py_repeat I (target - c1 - 1) ++ [X]
                   ++ py_repeat I (c2 - target - 1) ++ [np_outer one one]
                   ++ py_repeat I (num_qubits - c2 - 1)) ;;
    s12 <- np_add term1 term2 ;;
    s123 <- np_add s12 term3 ;;
    np_add s123 term4
  else if (target <? c1)%Z then
    term1 <- kron (py_repeat I target ++ [I]
                   ++ py_repeat I (c1 - target - 1) ++ [np_outer zero zero]
                   ++ py_repeat I (c2 - c1 - 1) ++ [np_outer zero zero]
                   ++ py_repeat I (num_qubits - c2 - 1)) ;;
    term2 <- kron (py_repeat I target ++ [I]
                   ++ py_repeat I (c1 - target - 1) ++ [np_outer one one]
                   ++ py_repeat I (c2 - c1 - 1) ++ [np_outer zero zero]
                   ++ py_repeat I (num_qubits - c2 - 1)) ;;
    term3 <- kron (py_repeat I target ++ [I]
                   ++ py_repeat I (c1 - target - 1) ++ [np_outer zero zero]
                   ++ py_repeat I (c2 - c1 - 1) ++ [np_outer one one]
                   ++ py_repeat I (num_qubits - c2 - 1)) ;;
    term4 <- kron (py_repeat I target ++ [X]
                   ++ py_repeat I (c1 - target - 1) ++ [np_outer one one]
                   ++ py_repeat I (c2 - c1 - 1) ++ [np_outer one one]
                   ++ py_repeat I (num_qubits - c2 - 1)) ;;
    s12 <- np_add term1 term2 ;;
    s123 <- np_add s12 term3 ;;
    np_add s123 term4
  else Raise (UnboundLocalError "operator"%string).

(** ** gates.py: the remaining fold and constants *)

(** [np.dot] on arrays of dimension at most 2: a 0-d operand multiplies,
    otherwise the last axis of [a] is summed against the first axis of [b]. *)
Definition np_dot (a b : ndarray) : result ndarray :=
  match a, b with
  | Arr0 x, _ => OK (np_scale x b)
  | _, Arr0 y => OK (np_scale y a)
  | Arr2 m, Arr2 p =>
      if ncols m =? nrows p then OK (Arr2 (mul2 m p))
      else Raise (ValueError "shapes not aligned"%string)
  | Arr2 m, Arr1 v =>
      if ncols m =? length v
      then OK (Arr1 (map (fun i => sum_to (ncols m) (fun k => (get m i k * nth k v 0)%C))
                         (seq 0 (nrows m))))
      else Raise (ValueError "shapes not aligned"%string)
  | Arr1 v, Arr2 p =>
      if length v =? nrows p
      then OK (Arr1 (map (fun j => sum_to (length v) (fun k => (nth k v 0 * get p k j)%C))
                         (seq 0 (ncols p))))
      else Raise (ValueError "shapes not aligned"%string)
  | Arr1 u, Arr1 v =>
      if length u =? length v
      then OK (Arr0 (sum_to (length u) (fun k => (nth k u 0 * nth k v 0)%C)))
      else Raise (ValueError "shapes not aligned"%string)
  end.

(** The loop of [dot] over the remaining operands. *)
Fixpoint dot_loop (res : ndarray) (ops : list ndarray) : result ndarray :=
  match ops with
  | [] => OK res
  | op :: rest => res' <- np_dot res op ;; dot_loop res' rest
  end.

(** [dot(operators)] *)
Definition dot (operators : list ndarray) : result ndarray :=
  match operators with
  | [] => Raise (IndexError "list index out of range"%string)
  | first :: rest => dot_loop first rest
  end.

(** The Pauli-Z constant [Z] of the source (renamed: [Z] is the type of
    integers here). *)
Definition Zgate : ndarray := Arr2 [[1; 0]; [0; - (1)]]%C.

Definition CZ : ndarray :=
  Arr2 [[1; 0; 0; 0];
        [0; 1; 0; 0];
        [0; 0; 1; 0];
        [0; 0; 0; - (1)]]%C.

Definition swap : ndarray :=
  Arr2 [[1; 0; 0; 0];
        [0; 0; 1; 0];
        [0; 1; 0; 0];
        [0; 0; 0; 1]]%C.

End Engine.

(** * Vocabulary of the specification *)

Section Vocabulary.

Context {C : Type} {SC : Scalars C}.

(** [m] is rectangular with [r] rows of length [c]. *)
Definition is_mat (r c : nat) (m : matrix (C:=C)) : Prop :=
  length m = r /\ Forall (fun row => length row = c) m.

(** Entrywise sum of two matrices of the same shape. *)
Definition madd (a b : matrix (C:=C)) : matrix :=
  mat (nrows a) (ncols a) (fun i j => (get a i j + get b i j)%C).

Definition zeros (r c : nat) : matrix (C:=C) := mat r c (fun _ _ => 0%C).

(** [Identity(n)] *)
Definition eye (n : nat) : matrix (C:=C) :=
  mat n n (fun i j => if i =? j then 1%C else 0%C).

(** Conjugate transpose. *)
Definition dagger (a : matrix (C:=C)) : matrix :=
  mat (ncols a) (nrows a) (fun i j => cconj (get a j i)).

(** [O . O-dagger = Identity] *)
Definition unitary (a : matrix (C:=C)) : Prop :=
  mul2 a (dagger a) = eye (nrows a).

(** The projectors [|0><0|] and [|1><1|]. *)
Definition projector0 : matrix (C:=C) := [[1; 0]; [0; 0]]%C.
Definition projector1 : matrix (C:=C) := [[0; 0]; [0; 1]]%C.

(** The data of the Pauli-X gate [X]. *)
Definition pauli_x : matrix (C:=C) := [[0; 1]; [1; 0]]%C.

(** The tensor product over qubit positions [0 .. n-1], lowest position
    leftmost, with the 2 x 2 factor [f k] at position [k]. *)
Fixpoint tensor (n : nat) (f : nat -> matrix (C:=C)) : matrix :=
  match n with
  | O => [[1%C]]
  | S k => kron2 (tensor k f) (f k)
  end.

(** Factor [a] at position [p], the factors of [f] everywhere else. *)
Definition place (p : nat) (a : matrix (C:=C)) (f : nat -> matrix) : nat -> matrix :=
  fun k => if k =? p then a else f k.

(** Identity at every position. *)
Definition idle : nat -> matrix (C:=C) := fun _ => eye 2.

(** Factors [a], [b], [d] at the positions [p], [q], [r] of an [n]-qubit
    register, identity elsewhere. *)
Definition three_slots (n p q r : nat) (a b d : matrix (C:=C)) : matrix :=
  tensor n (place p a (place q b (place r d idle))).

(** The basis states [|0>] and [|1>] of one qubit as 2 x 1 columns, and the
    state [|q 0, q 1, ..., q (n-1)>] of an [n]-qubit register as a
    [2^n] x 1 column. *)
Definition ket (b : bool) : matrix (C:=C) :=
  if b then [[0]; [1]]%C else [[1]; [0]]%C.

Definition register (n : nat) (q : nat -> bool) : matrix (C:=C) :=
  tensor n (fun k => ket (q k)).

Definition two_slots (n p q : nat) (a b : matrix (C:=C)) : matrix :=
  tensor n (place p a (place q b idle)).

(** A 2-D operand holding a 2 x 2 matrix. *)
Definition gate22 (x : ndarray (C:=C)) : Prop :=
  exists m, x = Arr2 m /\ is_mat 2 2 m.

(** The computational-basis state [|q0, q1, ...>] as an amplitude vector. *)
Definition basis_ket (bits : list bool) : result ndarray :=
  kron (map (fun q : bool => if q then one else zero) bits).

(** The errors raised by the validation at the head of the controlled-gate
    constructors.  (Every one of them is a Python [ValueError]; they are told
    apart from the backend's own errors by their message.) *)
Definition InvalidQubitError (e : exn) : Prop :=
  e = ValueError "Control and Target qubits must be different."%string
  \/ e = ValueError "Error"%string
  \/ e = ValueError "Control and target qubits must be within range"%string.

(** [x * m] entry by entry. *)
Definition mscale (x : C) (m : matrix (C:=C)) : matrix := map (map (cmul x)) m.

(** A 1-D array as a column, and back. *)
Definition col (v : list C) : matrix := map (fun x => [x]) v.
Definition flat (m : matrix (C:=C)) : list C := map (fun row => nth 0 row 0%C) m.

(** The register state whose qubits are the entries of [bits]. *)
Definition register_of (bits : list bool) : matrix (C:=C) :=
  register (length bits) (fun k => nth k bits false).

(** [bits] with the entry at position [t] replaced by [x]. *)
Definition set_bit (bits : list bool) (t : nat) (x : bool) : list bool :=
  map (fun k => if k =? t then x else nth k bits false) (seq 0 (length bits)).

(** The amplitudes of the GHZ state on [n] qubits: [1/sqrt(2)] at the first
    and at the last index, 0 in between. *)
Definition ghz_vector {S2 : InvSqrt2 C} (n : nat) : list C :=
  map (fun i => if (i =? 0) || (i =? 2 ^ n - 1) then inv_sqrt2 else 0%C)
      (seq 0 (2 ^ n)).

(** The error of the adjacency test of [cnot_adj]. *)
Definition NotAdjacentError (e : exn) : Prop :=
  e = ValueError "Control and Target qubits must be adjacent."%string.

(** The state of [generate_ghz_state] after the Hadamard and the first
    [j - 1] CNOTs: an equal superposition of [|00...0>] and [|1...10...0>]
    with [j] ones. *)
Definition ghz_col {S2 : InvSqrt2 C} (j n : nat) : matrix :=
  madd (mscale inv_sqrt2 (register n (fun _ => false)))
       (mscale inv_sqrt2 (register n (fun k => k <? j))).


End Vocabulary.

(** * Properties *)

Section Facts.

Context {C : Type} {SC : Scalars C}.

Implicit Types (f g : nat -> nat -> C) (a b m : matrix (C:=C)).

Add Ring scalar_ring_inst : (@scalars_ring C SC).

(** ** Tabulated matrices *)

Lemma map_seq_ext (A : Type) (f g : nat -> A) (a n : nat) :
  (forall k, a <= k < a + n -> f k = g k) ->
  map f (seq a n) = map g (seq a n).
Proof.
  intros E. apply map_ext_in. intros k Hk. apply in_seq in Hk. now apply E.
Qed.

Lemma nth_map_seq (A : Type) (f : nat -> A) (d : A) (n k : nat) :
  k < n -> nth k (map f (seq 0 n)) d = f k.
Proof.
  intros Hk.
  rewrite (nth_indep _ d (f 0)) by now rewrite length_map, length_seq.
  now rewrite (map_nth f (seq 0 n) 0 k), seq_nth.
Qed.

Lemma list_eq_tabulate (A : Type) (d : A) (l : list A) :
  l = map (fun k => nth k l d) (seq 0 (length l)).
Proof.
  apply nth_ext with (d := d) (d' := d).
  - now rewrite length_map, length_seq.
  - intros k Hk. now rewrite nth_map_seq.
Qed.

Lemma nrows_mat r c f : nrows (mat r c f) = r.
Proof. unfold nrows, mat. now rewrite length_map, length_seq. Qed.

Lemma ncols_mat r c f : 0 < r -> ncols (mat r c f) = c.
Proof.
  intros Hr. unfold ncols, mat. destruct r as [|r]; [lia|].
  cbn [seq map hd]. now rewrite length_map, length_seq.
Qed.

Lemma get_mat r c f i j : i < r -> j < c -> get (mat r c f) i j = f i j.
Proof.
  intros Hi Hj. unfold get, mat.
  rewrite (nth_map_seq (fun i => map (f i) (seq 0 c))) by assumption.
  now rewrite nth_map_seq.
Qed.

Lemma mat_ext r c f g :
  (forall i j, i < r -> j < c -> f i j = g i j) -> mat r c f = mat r c g.
Proof.
  intros E. unfold mat. apply map_seq_ext. intros i Hi.
  apply map_seq_ext. intros j Hj. apply E; lia.
Qed.

Lemma is_mat_mat r c f : is_mat r c (mat r c f).
Proof.
  split.
  - apply nrows_mat.
  - unfold mat. apply Forall_forall. intros row Hrow.
    apply in_map_iff in Hrow. destruct Hrow as [i [<- _]].
    now rewrite length_map, length_seq.
Qed.

Lemma is_mat_tabulate r c m : is_mat r c m -> m = mat r c (get m).
Proof.
  intros [Hl Hf]. unfold mat, get.
  rewrite (list_eq_tabulate [] m) at 1. rewrite Hl.
  apply map_seq_ext. intros i Hi.
  assert (Hc : length (nth i m []) = c).
  { rewrite Forall_forall in Hf. apply Hf. apply nth_In. lia. }
  rewrite (list_eq_tabulate 0%C (nth i m [])) at 1. now rewrite Hc.
Qed.

Lemma is_mat_ext r c a b :
  is_mat r c a -> is_mat r c b ->
  (forall i j, i < r -> j < c -> get a i j = get b i j) -> a = b.
Proof.
  intros Ha Hb E.
  rewrite (is_mat_tabulate Ha), (is_mat_tabulate Hb). now apply mat_ext.
Qed.

Lemma is_mat_nrows r c m : is_mat r c m -> nrows m = r.
Proof. now intros [Hl _]. Qed.

Lemma is_mat_ncols r c m : 0 < r -> is_mat r c m -> ncols m = c.
Proof.
  intros Hr [Hl Hf]. unfold ncols. destruct m as [|row m]; [simpl in Hl; lia|].
  now inversion Hf.
Qed.

(** ** Finite sums *)

Lemma sum_to_ext n (u v : nat -> C) :
  (forall k, k < n -> u k = v k) -> sum_to n u = sum_to n v.
Proof.
  induction n as [|n IH]; intros E; cbn [sum_to]; [reflexivity|].
  rewrite IH by (intros; apply E; lia). now rewrite E by lia.
Qed.

Lemma sum_to_zero n : sum_to n (fun _ => 0%C) = 0%C.
Proof. induction n as [|n IH]; cbn [sum_to]; [reflexivity|]. rewrite IH. ring. Qed.

Lemma sum_to_add n (u v : nat -> C) :
  sum_to n (fun k => (u k + v k)%C) = (sum_to n u + sum_to n v)%C.
Proof. induction n as [|n IH]; cbn [sum_to]; [ring|]. rewrite IH. ring. Qed.

Lemma sum_to_scale_l n (x : C) (u : nat -> C) :
  sum_to n (fun k => (x * u k)%C) = (x * sum_to n u)%C.
Proof. induction n as [|n IH]; cbn [sum_to]; [ring|]. rewrite IH. ring. Qed.

Lemma sum_to_scale_r n (x : C) (u : nat -> C) :
  sum_to n (fun k => (u k * x)%C) = (sum_to n u * x)%C.
Proof. induction n as [|n IH]; cbn [sum_to]; [ring|]. rewrite IH. ring. Qed.

Lemma sum_to_app n p (u : nat -> C) :
  sum_to (n + p) u = (sum_to n u + sum_to p (fun k => u (n + k)%nat))%C.
Proof.
  induction p as [|p IH].
  - rewrite Nat.add_0_r. cbn [sum_to]. ring.
  - rewrite Nat.add_succ_r. cbn [sum_to]. rewrite IH. ring.
Qed.

(** A sum over [k < n * p] read as a double sum over the quotient and the
    remainder of [k] by [p]. *)
Lemma sum_to_divmod n p (F : nat -> nat -> C) :
  sum_to (n * p) (fun k => F (k / p) (k mod p))
  = sum_to n (fun x => sum_to p (fun y => F x y)).
Proof.
  induction n as [|n IH]; [reflexivity|].
  cbn [sum_to]. rewrite <- IH.
  replace (S n * p) with (n * p + p) by lia.
  rewrite sum_to_app. f_equal.
  apply sum_to_ext. intros k Hk.
  replace (n * p + k) with (k + n * p) by lia.
  rewrite Nat.div_add, Nat.Div0.mod_add by lia.
  now rewrite Nat.div_small, Nat.mod_small by lia.
Qed.

(** ** Kronecker and matrix products of tabulated matrices *)

Lemma divmod_lt i r p : i < r * p -> i / p < r /\ i mod p < p.
Proof.
  intros Hi. assert (0 < p) by (destruct p; lia). split.
  - apply Nat.Div0.div_lt_upper_bound. lia.
  - now apply Nat.mod_upper_bound; lia.
Qed.

Lemma is_mat_kron2 ra ca rb cb a b :
  0 < ra -> 0 < rb -> is_mat ra ca a -> is_mat rb cb b ->
  is_mat (ra * rb) (ca * cb) (kron2 a b).
Proof.
  intros Hra Hrb Ha Hb. unfold kron2.
  rewrite (is_mat_nrows Ha), (is_mat_nrows Hb).
  rewrite (is_mat_ncols Hra Ha), (is_mat_ncols Hrb Hb).
  apply is_mat_mat.
Qed.

Lemma get_kron2 ra ca rb cb a b i j :
  0 < ra -> 0 < rb -> is_mat ra ca a -> is_mat rb cb b ->
  i < ra * rb -> j < ca * cb ->
  get (kron2 a b) i j = (get a (i / rb) (j / cb) * get b (i mod rb) (j mod cb))%C.
Proof.
  intros Hra Hrb Ha Hb Hi Hj. unfold kron2.
  rewrite (is_mat_nrows Ha), (is_mat_nrows Hb).
  rewrite (is_mat_ncols Hra Ha), (is_mat_ncols Hrb Hb).
  now rewrite get_mat.
Qed.

Lemma is_mat_mul2 r n c a b :
  0 < n -> is_mat r n a -> is_mat n c b -> is_mat r c (mul2 a b).
Proof.
  intros Hn Ha Hb. unfold mul2.
  rewrite (is_mat_nrows Ha), (is_mat_ncols Hn Hb). apply is_mat_mat.
Qed.

Lemma get_mul2 r n c a b i j :
  0 < r -> 0 < n -> is_mat r n a -> is_mat n c b -> i < r -> j < c ->
  get (mul2 a b) i j = sum_to n (fun k => (get a i k * get b k j)%C).
Proof.
  intros Hr Hn Ha Hb Hi Hj. unfold mul2.
  rewrite (is_mat_nrows Ha), (is_mat_ncols Hn Hb), (is_mat_ncols Hr Ha).
  now rewrite get_mat.
Qed.

(** The mixed-product property. *)
Lemma kron2_mul2 r1 n1 c1 r2 n2 c2 a b a' b' :
  0 < r1 -> 0 < n1 -> 0 < r2 -> 0 < n2 ->
  is_mat r1 n1 a -> is_mat n1 c1 a' -> is_mat r2 n2 b -> is_mat n2 c2 b' ->
  mul2 (kron2 a b) (kron2 a' b') = kron2 (mul2 a a') (mul2 b b').
Proof.
  intros Hr1 Hn1 Hr2 Hn2 Ha Ha' Hb Hb'.
  assert (Hab := is_mat_kron2 Hr1 Hr2 Ha Hb).
  assert (Hab' := is_mat_kron2 Hn1 Hn2 Ha' Hb').
  assert (Hm1 := is_mat_mul2 Hn1 Ha Ha').
  assert (Hm2 := is_mat_mul2 Hn2 Hb Hb').
  assert (0 < r1 * r2) by nia. assert (0 < n1 * n2) by nia.
  apply is_mat_ext with (r := r1 * r2) (c := c1 * c2).
  - now apply is_mat_mul2 with (n := n1 * n2).
  - now apply is_mat_kron2.
  - intros i j Hi Hj.
    destruct (divmod_lt _ _ Hi) as [Hi1 Hi2].
    destruct (divmod_lt _ _ Hj) as [Hj1 Hj2].
    rewrite (get_mul2 (r := r1 * r2) (n := n1 * n2) (c := c1 * c2)) by assumption.
    rewrite (get_kron2 (ra := r1) (ca := c1) (rb := r2) (cb := c2)) by assumption.
    rewrite (get_mul2 (r := r1) (n := n1) (c := c1)) by assumption.
    rewrite (get_mul2 (r := r2) (n := n2) (c := c2)) by assumption.
    rewrite <- sum_to_scale_r.
    set (F := fun x y => (get a (i / r2) x * get a' x (j / c2)
                          * (get b (i mod r2) y * get b' y (j mod c2)))%C).
    transitivity (sum_to (n1 * n2) (fun k => F (k / n2) (k mod n2))).
    + apply sum_to_ext. intros k Hk. destruct (divmod_lt _ _ Hk) as [Hq Hr].
      rewrite (get_kron2 (ra := r1) (ca := n1) (rb := r2) (cb := n2)) by assumption.
      rewrite (get_kron2 (ra := n1) (ca := c1) (rb := n2) (cb := c2)) by assumption.
      unfold F. ring.
    + rewrite (@sum_to_divmod n1 n2 F). apply sum_to_ext. intros x Hx.
      unfold F. now rewrite sum_to_scale_l.
Qed.

Lemma div_div_kron i p q : i / q / p = i / (p * q).
Proof. rewrite Nat.Div0.div_div. now rewrite Nat.mul_comm. Qed.

Lemma mod_div_kron i p q : 0 < q -> i mod (p * q) / q = (i / q) mod p.
Proof.
  intros Hq. rewrite (Nat.mul_comm p q), Nat.Div0.mod_mul_r.
  rewrite (Nat.mul_comm q), Nat.div_add by lia.
  rewrite Nat.div_small by (apply Nat.mod_upper_bound; lia). lia.
Qed.

Lemma mod_mod_kron i p q : 0 < q -> (i mod (p * q)) mod q = i mod q.
Proof.
  intros Hq. rewrite (Nat.mul_comm p q), Nat.Div0.mod_mul_r.
  rewrite (Nat.mul_comm q), Nat.Div0.mod_add. apply Nat.Div0.mod_mod.
Qed.

Lemma kron2_assoc ra ca rb cb rc cc a b c :
  0 < ra -> 0 < rb -> 0 < rc ->
  is_mat ra ca a -> is_mat rb cb b -> is_mat rc cc c ->
  kron2 (kron2 a b) c = kron2 a (kron2 b c).
Proof.
  intros Hra Hrb Hrc Ha Hb Hc.
  assert (Hab := is_mat_kron2 Hra Hrb Ha Hb).
  assert (Hbc := is_mat_kron2 Hrb Hrc Hb Hc).
  assert (0 < ra * rb) by nia. assert (0 < rb * rc) by nia.
  apply is_mat_ext with (r := ra * rb * rc) (c := ca * cb * cc).
  - now apply is_mat_kron2.
  - rewrite <- !Nat.mul_assoc. now apply is_mat_kron2.
  - intros i j Hi Hj.
    destruct (divmod_lt _ _ Hi) as [Hi1 Hi2].
    destruct (divmod_lt _ _ Hj) as [Hj1 Hj2].
    destruct (divmod_lt _ _ Hi1) as [Hi3 Hi4].
    destruct (divmod_lt _ _ Hj1) as [Hj3 Hj4].
    rewrite (get_kron2 (ra := ra * rb) (ca := ca * cb) (rb := rc) (cb := cc)) by assumption.
    rewrite (get_kron2 (ra := ra) (ca := ca) (rb := rb) (cb := cb)) by assumption.
    rewrite (get_kron2 (ra := ra) (ca := ca) (rb := rb * rc) (cb := cb * cc))
      by (assumption || lia).
    assert (0 < cb) by (destruct cb; lia). assert (0 < cc) by (destruct cc; lia).
    rewrite (get_kron2 (ra := rb) (ca := cb) (rb := rc) (cb := cc)); try assumption.
    + rewrite !div_div_kron, !mod_div_kron, !mod_mod_kron by assumption. ring.
    + apply Nat.mod_upper_bound. nia.
    + apply Nat.mod_upper_bound. nia.
Qed.

(** ** Sums of matrices of one shape *)

Lemma is_mat_madd r c a b : 0 < r -> is_mat r c a -> is_mat r c (madd a b).
Proof.
  intros Hr Ha. unfold madd.
  rewrite (is_mat_nrows Ha), (is_mat_ncols Hr Ha). apply is_mat_mat.
Qed.

Lemma get_madd r c a b i j :
  0 < r -> is_mat r c a -> i < r -> j < c ->
  get (madd a b) i j = (get a i j + get b i j)%C.
Proof.
  intros Hr Ha Hi Hj. unfold madd.
  rewrite (is_mat_nrows Ha), (is_mat_ncols Hr Ha). now rewrite get_mat.
Qed.

Lemma bidx_lt len i : i < len -> bidx len i = i.
Proof. unfold bidx. destruct (Nat.eqb_spec len 1); lia. Qed.

(** On operands of one shape broadcasting is the entrywise sum. *)
Lemma add2_same r c a b :
  0 < r -> is_mat r c a -> is_mat r c b -> add2 a b = Some (madd a b).
Proof.
  intros Hr Ha Hb. unfold add2, madd, bdim.
  rewrite (is_mat_nrows Ha), (is_mat_nrows Hb).
  rewrite (is_mat_ncols Hr Ha), (is_mat_ncols Hr Hb).
  rewrite !Nat.eqb_refl. f_equal. apply mat_ext. intros i j Hi Hj.
  now rewrite !bidx_lt.
Qed.

Lemma is_mat_zeros r c : is_mat r c (zeros r c).
Proof. apply is_mat_mat. Qed.

Lemma madd_comm r c a b :
  0 < r -> is_mat r c a -> is_mat r c b -> madd a b = madd b a.
Proof.
  intros Hr Ha Hb. apply is_mat_ext with (r := r) (c := c).
  - now apply is_mat_madd.
  - now apply is_mat_madd.
  - intros i j Hi Hj. rewrite !(get_madd (r := r) (c := c)) by assumption. ring.
Qed.

Lemma madd_assoc r c a b d :
  0 < r -> is_mat r c a -> is_mat r c b ->
  madd (madd a b) d = madd a (madd b d).
Proof.
  intros Hr Ha Hb. assert (Hab := is_mat_madd b Hr Ha).
  apply is_mat_ext with (r := r) (c := c).
  - now apply is_mat_madd.
  - now apply is_mat_madd.
  - intros i j Hi Hj. rewrite !(get_madd (r := r) (c := c)) by assumption. ring.
Qed.

Lemma madd_zeros_r r c a : 0 < r -> is_mat r c a -> madd a (zeros r c) = a.
Proof.
  intros Hr Ha. apply is_mat_ext with (r := r) (c := c).
  - now apply is_mat_madd.
  - assumption.
  - intros i j Hi Hj. rewrite (get_madd (r := r) (c := c)) by assumption.
    unfold zeros. rewrite get_mat by assumption. ring.
Qed.

Lemma madd_zeros_l r c a : 0 < r -> is_mat r c a -> madd (zeros r c) a = a.
Proof.
  intros Hr Ha. rewrite (madd_comm (r := r) (c := c)); auto using is_mat_zeros.
  now apply madd_zeros_r.
Qed.

Lemma mul2_madd_l r n c a a' b :
  0 < r -> 0 < n -> is_mat r n a -> is_mat r n a' -> is_mat n c b ->
  mul2 (madd a a') b = madd (mul2 a b) (mul2 a' b).
Proof.
  intros Hr Hn Ha Ha' Hb. assert (Hs := is_mat_madd a' Hr Ha).
  assert (Hm := is_mat_mul2 Hn Ha Hb).
  apply is_mat_ext with (r := r) (c := c).
  - now apply is_mat_mul2 with (n := n).
  - now apply is_mat_madd.
  - intros i j Hi Hj.
    rewrite (get_madd (r := r) (c := c)) by assumption.
    rewrite !(get_mul2 (r := r) (n := n) (c := c)) by assumption.
    rewrite <- sum_to_add. apply sum_to_ext. intros k Hk.
    rewrite (get_madd (r := r) (c := n)) by assumption. ring.
Qed.

Lemma mul2_madd_r r n c a b b' :
  0 < r -> 0 < n -> is_mat r n a -> is_mat n c b -> is_mat n c b' ->
  mul2 a (madd b b') = madd (mul2 a b) (mul2 a b').
Proof.
  intros Hr Hn Ha Hb Hb'. assert (Hs := is_mat_madd b' Hn Hb).
  assert (Hm := is_mat_mul2 Hn Ha Hb).
  apply is_mat_ext with (r := r) (c := c).
  - now apply is_mat_mul2 with (n := n).
  - now apply is_mat_madd.
  - intros i j Hi Hj.
    rewrite (get_madd (r := r) (c := c)) by assumption.
    rewrite !(get_mul2 (r := r) (n := n) (c := c)) by assumption.
    rewrite <- sum_to_add. apply sum_to_ext. intros k Hk.
    rewrite (get_madd (r := n) (c := c)) by assumption. ring.
Qed.

Lemma mul2_zeros_l r n c b :
  0 < r -> 0 < n -> is_mat n c b -> mul2 (zeros r n) b = zeros r c.
Proof.
  intros Hr Hn Hb. apply is_mat_ext with (r := r) (c := c).
  - apply is_mat_mul2 with (n := n); auto using is_mat_zeros.
  - apply is_mat_zeros.
  - intros i j Hi Hj.
    rewrite (get_mul2 (r := r) (n := n) (c := c)) by auto using is_mat_zeros.
    unfold zeros at 2. rewrite get_mat by assumption.
    rewrite <- (sum_to_zero n). apply sum_to_ext. intros k Hk.
    unfold zeros. rewrite get_mat by assumption. ring.
Qed.

Lemma kron2_madd_l ra ca rb cb a a' b :
  0 < ra -> 0 < rb -> is_mat ra ca a -> is_mat ra ca a' -> is_mat rb cb b ->
  kron2 (madd a a') b = madd (kron2 a b) (kron2 a' b).
Proof.
  intros Hra Hrb Ha Ha' Hb. assert (Hs := is_mat_madd a' Hra Ha).
  assert (Hk := is_mat_kron2 Hra Hrb Ha Hb). assert (0 < ra * rb) by nia.
  apply is_mat_ext with (r := ra * rb) (c := ca * cb).
  - now apply is_mat_kron2.
  - now apply is_mat_madd.
  - intros i j Hi Hj.
    destruct (divmod_lt _ _ Hi) as [Hi1 Hi2]. destruct (divmod_lt _ _ Hj) as [Hj1 Hj2].
    rewrite (get_madd (r := ra * rb) (c := ca * cb)) by assumption.
    rewrite !(get_kron2 (ra := ra) (ca := ca) (rb := rb) (cb := cb)) by assumption.
    rewrite (get_madd (r := ra) (c := ca)) by assumption. ring.
Qed.

Lemma kron2_madd_r ra ca rb cb a b b' :
  0 < ra -> 0 < rb -> is_mat ra ca a -> is_mat rb cb b -> is_mat rb cb b' ->
  kron2 a (madd b b') = madd (kron2 a b) (kron2 a b').
Proof.
  intros Hra Hrb Ha Hb Hb'. assert (Hs := is_mat_madd b' Hrb Hb).
  assert (Hk := is_mat_kron2 Hra Hrb Ha Hb). assert (0 < ra * rb) by nia.
  apply is_mat_ext with (r := ra * rb) (c := ca * cb).
  - now apply is_mat_kron2.
  - now apply is_mat_madd.
  - intros i j Hi Hj.
    destruct (divmod_lt _ _ Hi) as [Hi1 Hi2]. destruct (divmod_lt _ _ Hj) as [Hj1 Hj2].
    rewrite (get_madd (r := ra * rb) (c := ca * cb)) by assumption.
    rewrite !(get_kron2 (ra := ra) (ca := ca) (rb := rb) (cb := cb)) by assumption.
    rewrite (get_madd (r := rb) (c := cb)) by assumption. ring.
Qed.

Lemma kron2_zeros_l ra ca rb cb b :
  0 < ra -> 0 < rb -> is_mat rb cb b ->
  kron2 (zeros ra ca) b = zeros (ra * rb) (ca * cb).
Proof.
  intros Hra Hrb Hb. apply is_mat_ext with (r := ra * rb) (c := ca * cb).
  - apply is_mat_kron2; auto using is_mat_zeros.
  - apply is_mat_zeros.
  - intros i j Hi Hj.
    destruct (divmod_lt _ _ Hi) as [Hi1 Hi2]. destruct (divmod_lt _ _ Hj) as [Hj1 Hj2].
    rewrite (get_kron2 (ra := ra) (ca := ca) (rb := rb) (cb := cb))
      by auto using is_mat_zeros.
    unfold zeros. rewrite !get_mat by assumption. ring.
Qed.

Lemma kron2_zeros_r ra ca rb cb a :
  0 < ra -> 0 < rb -> is_mat ra ca a ->
  kron2 a (zeros rb cb) = zeros (ra * rb) (ca * cb).
Proof.
  intros Hra Hrb Ha. apply is_mat_ext with (r := ra * rb) (c := ca * cb).
  - apply is_mat_kron2; auto using is_mat_zeros.
  - apply is_mat_zeros.
  - intros i j Hi Hj.
    destruct (divmod_lt _ _ Hi) as [Hi1 Hi2]. destruct (divmod_lt _ _ Hj) as [Hj1 Hj2].
    rewrite (get_kron2 (ra := ra) (ca := ca) (rb := rb) (cb := cb))
      by auto using is_mat_zeros.
    unfold zeros. rewrite !get_mat by assumption. ring.
Qed.

(** ** Conjugate transpose *)

Lemma cconj_0 : cconj 0%C = 0%C :> C.
Proof.
  assert (E : (cconj 0 + cconj 0 = cconj 0 + 0)%C).
  { rewrite <- cconj_add. replace (0 + 0)%C with (0%C : C) by ring. ring. }
  assert (E' : (- cconj 0 + (cconj 0 + cconj 0) = - cconj 0 + (cconj 0 + 0))%C)
    by now rewrite E.
  ring_simplify in E'. exact E'.
Qed.

Lemma is_mat_dagger r c a : 0 < r -> is_mat r c a -> is_mat c r (dagger a).
Proof.
  intros Hr Ha. unfold dagger.
  rewrite (is_mat_nrows Ha), (is_mat_ncols Hr Ha). apply is_mat_mat.
Qed.

Lemma get_dagger r c a i j :
  0 < r -> is_mat r c a -> i < c -> j < r -> get (dagger a) i j = cconj (get a j i).
Proof.
  intros Hr Ha Hi Hj. unfold dagger.
  rewrite (is_mat_nrows Ha), (is_mat_ncols Hr Ha). now rewrite get_mat.
Qed.

Lemma dagger_kron2 ra ca rb cb a b :
  0 < ra -> 0 < ca -> 0 < rb -> 0 < cb -> is_mat ra ca a -> is_mat rb cb b ->
  dagger (kron2 a b) = kron2 (dagger a) (dagger b).
Proof.
  intros Hra Hca Hrb Hcb Ha Hb.
  assert (Hk := is_mat_kron2 Hra Hrb Ha Hb). assert (0 < ra * rb) by nia.
  assert (Hda := is_mat_dagger Hra Ha). assert (Hdb := is_mat_dagger Hrb Hb).
  apply is_mat_ext with (r := ca * cb) (c := ra * rb).
  - now apply is_mat_dagger.
  - now apply is_mat_kron2.
  - intros i j Hi Hj.
    destruct (divmod_lt _ _ Hi) as [Hi1 Hi2]. destruct (divmod_lt _ _ Hj) as [Hj1 Hj2].
    rewrite (get_dagger (r := ra * rb) (c := ca * cb)) by assumption.
    rewrite (get_kron2 (ra := ra) (ca := ca) (rb := rb) (cb := cb)) by assumption.
    rewrite (get_kron2 (ra := ca) (ca := ra) (rb := cb) (cb := rb)) by assumption.
    rewrite (get_dagger (r := ra) (c := ca)), (get_dagger (r := rb) (c := cb)) by assumption.
    apply cconj_mul.
Qed.

Lemma dagger_madd r c a b :
  0 < r -> 0 < c -> is_mat r c a -> is_mat r c b ->
  dagger (madd a b) = madd (dagger a) (dagger b).
Proof.
  intros Hr Hc Ha Hb. assert (Hs := is_mat_madd b Hr Ha).
  assert (Hda := is_mat_dagger Hr Ha).
  apply is_mat_ext with (r := c) (c := r).
  - now apply is_mat_dagger.
  - now apply is_mat_madd.
  - intros i j Hi Hj.
    rewrite (get_dagger (r := r) (c := c)) by assumption.
    rewrite (get_madd (r := c) (c := r) (a := dagger a)) by assumption.
    rewrite (get_madd (r := r) (c := c)) by assumption.
    rewrite !(get_dagger (r := r) (c := c)) by assumption.
    apply cconj_add.
Qed.

(** ** Identity matrices *)

Lemma is_mat_eye n : is_mat n n (eye n).
Proof. apply is_mat_mat. Qed.

Lemma kron2_eye p q : 0 < p -> 0 < q -> kron2 (eye p) (eye q) = eye (p * q).
Proof.
  intros Hp Hq. apply is_mat_ext with (r := p * q) (c := p * q).
  - apply is_mat_kron2; auto using is_mat_eye.
  - apply is_mat_eye.
  - intros i j Hi Hj.
    destruct (divmod_lt _ _ Hi) as [Hi1 Hi2]. destruct (divmod_lt _ _ Hj) as [Hj1 Hj2].
    rewrite (get_kron2 (ra := p) (ca := p) (rb := q) (cb := q)) by auto using is_mat_eye.
    unfold eye. rewrite !get_mat by assumption.
    pose proof (Nat.div_mod_eq i q) as Ei. pose proof (Nat.div_mod_eq j q) as Ej.
    destruct (Nat.eqb_spec (i / q) (j / q)) as [E1|E1];
      destruct (Nat.eqb_spec (i mod q) (j mod q)) as [E2|E2];
      destruct (Nat.eqb_spec i j) as [E|E]; try ring.
    + exfalso. apply E. rewrite Ei, Ej, E1, E2. reflexivity.
    + subst j. contradiction.
    + subst j. contradiction.
    + subst j. contradiction.
Qed.

(** ** Tensor products over qubit positions *)

Lemma pow2_pos n : 0 < 2 ^ n.
Proof. pose proof (Nat.pow_nonzero 2 n). lia. Qed.

Lemma is_mat_tensor n (h : nat -> matrix) :
  (forall k, k < n -> is_mat 2 2 (h k)) -> is_mat (2 ^ n) (2 ^ n) (tensor n h).
Proof.
  induction n as [|n IH]; intros Hh.
  - split; [reflexivity|]. repeat constructor.
  - cbn [tensor]. rewrite Nat.pow_succ_r', (Nat.mul_comm 2).
    apply is_mat_kron2; auto using pow2_pos.
Qed.

Lemma tensor_ext n (h h' : nat -> matrix) :
  (forall k, k < n -> h k = h' k) -> tensor n h = tensor n h'.
Proof.
  induction n as [|n IH]; intros E; [reflexivity|].
  cbn [tensor]. rewrite IH by auto. now rewrite E by lia.
Qed.

Lemma tensor_mul2 n (h h' : nat -> matrix) :
  (forall k, k < n -> is_mat 2 2 (h k)) ->
  (forall k, k < n -> is_mat 2 2 (h' k)) ->
  mul2 (tensor n h) (tensor n h') = tensor n (fun k => mul2 (h k) (h' k)).
Proof.
  induction n as [|n IH]; intros Hh Hh'.
  - cbv [tensor mul2 mat nrows ncols get seq map hd nth length sum_to].
    do 2 f_equal. ring.
  - cbn [tensor]. rewrite <- IH by auto.
    apply kron2_mul2 with (r1 := 2 ^ n) (n1 := 2 ^ n) (c1 := 2 ^ n)
                          (r2 := 2) (n2 := 2) (c2 := 2);
      auto using pow2_pos, is_mat_tensor.
Qed.

Lemma tensor_dagger n (h : nat -> matrix) :
  (forall k, k < n -> is_mat 2 2 (h k)) ->
  dagger (tensor n h) = tensor n (fun k => dagger (h k)).
Proof.
  induction n as [|n IH]; intros Hh.
  - cbv [tensor dagger mat nrows ncols get seq map hd nth length].
    now rewrite cconj_1.
  - cbn [tensor]. rewrite <- IH by auto.
    apply dagger_kron2 with (ra := 2 ^ n) (ca := 2 ^ n) (rb := 2) (cb := 2);
      auto using pow2_pos, is_mat_tensor.
Qed.

Lemma place_same p a (h : nat -> matrix) : place p a h p = a.
Proof. unfold place. now rewrite Nat.eqb_refl. Qed.

Lemma place_other p a (h : nat -> matrix) k : k <> p -> place p a h k = h k.
Proof. unfold place. intros Hk. destruct (Nat.eqb_spec k p); congruence. Qed.

Lemma is_mat_place n p a (h : nat -> matrix) :
  is_mat 2 2 a -> (forall k, k < n -> is_mat 2 2 (h k)) ->
  forall k, k < n -> is_mat 2 2 (place p a h k).
Proof. intros Ha Hh k Hk. unfold place. destruct (k =? p); auto. Qed.

(** Side conditions on shapes. *)
Ltac shape_step :=
  match goal with
  | |- 0 < 2 ^ _ => apply pow2_pos
  | |- _ < _ => lia
  | |- forall _, _ => intros
  | |- is_mat _ _ _ => assumption
  | |- is_mat _ _ (tensor _ _) => apply is_mat_tensor
  | |- is_mat _ _ (zeros _ _) => apply is_mat_zeros
  | |- is_mat _ _ (eye _) => apply is_mat_eye
  | |- is_mat 2 2 (idle _) => apply is_mat_eye
  | |- is_mat 2 2 (place _ _ _ _) =>
      unfold place at 1;
      match goal with |- context [if ?b then _ else _] => destruct b end
  | H : forall k, k < _ -> is_mat 2 2 (?h k) |- is_mat 2 2 (?h _) => apply H; lia
  end.

Ltac shapes := repeat shape_step.

(** The tensor product is additive in each factor. *)
Lemma tensor_place_madd n p a b (h : nat -> matrix) :
  p < n -> is_mat 2 2 a -> is_mat 2 2 b ->
  (forall k, k < n -> is_mat 2 2 (h k)) ->
  madd (tensor n (place p a h)) (tensor n (place p b h))
  = tensor n (place p (madd a b) h).
Proof.
  induction n as [|n IH]; intros Hp Ha Hb Hh; [lia|].
  cbn [tensor]. destruct (Nat.eq_dec p n) as [->|Hne].
  - rewrite !place_same.
    rewrite !(tensor_ext (place n _ h) h)
      by (intros; apply place_other; lia).
    symmetry.
    apply kron2_madd_r with (ra := 2 ^ n) (ca := 2 ^ n) (rb := 2) (cb := 2);
      auto using pow2_pos, is_mat_tensor.
  - rewrite !place_other by lia. rewrite <- IH by (auto; lia).
    symmetry.
    apply kron2_madd_l with (ra := 2 ^ n) (ca := 2 ^ n) (rb := 2) (cb := 2);
      shapes.
Qed.

(** A zero factor annihilates the tensor product. *)
Lemma tensor_zero n p (h : nat -> matrix) :
  p < n -> (forall k, k < n -> is_mat 2 2 (h k)) -> h p = zeros 2 2 ->
  tensor n h = zeros (2 ^ n) (2 ^ n).
Proof.
  induction n as [|n IH]; intros Hp Hh Hz; [lia|].
  cbn [tensor]. rewrite Nat.pow_succ_r', (Nat.mul_comm 2).
  destruct (Nat.eq_dec p n) as [->|Hne].
  - rewrite Hz. apply kron2_zeros_r; auto using pow2_pos, is_mat_tensor.
  - rewrite IH by (auto; lia). apply kron2_zeros_l; auto using pow2_pos.
Qed.

Lemma tensor_idle n : tensor n idle = eye (2 ^ n).
Proof.
  induction n as [|n IH]; [reflexivity|].
  cbn [tensor]. rewrite IH. unfold idle.
  rewrite kron2_eye by auto using pow2_pos.
  now rewrite Nat.pow_succ_r', (Nat.mul_comm 2).
Qed.

(** ** From padded lists to positions *)

Lemma map_seq_const (A : Type) (u : nat -> A) (v : A) (s n : nat) :
  (forall k, s <= k < s + n -> u k = v) -> map u (seq s n) = repeat v n.
Proof.
  revert s. induction n as [|n IH]; intros s E; [reflexivity|].
  cbn [seq map repeat]. rewrite E by lia. f_equal. apply IH. intros; apply E; lia.
Qed.

Lemma map_seq_single (A : Type) (u : nat -> A) (s : nat) : map u (seq s 1) = [u s].
Proof. reflexivity. Qed.

Ltac eqb_cases :=
  repeat match goal with
         | |- context [?x =? ?y] => destruct (Nat.eqb_spec x y); try lia
         end.

Ltac pad_tac d :=
  rewrite !seq_app, !map_app, !map_seq_single;
  rewrite !(@map_seq_const _ _ d) by (intros k Hk; eqb_cases; reflexivity);
  eqb_cases; reflexivity.

Lemma pad1 (A : Type) (d x : A) (p n : nat) :
  p < n ->
  repeat d p ++ [x] ++ repeat d (n - p - 1)
  = map (fun k => if k =? p then x else d) (seq 0 n).
Proof.
  intros Hp.
  replace n with (p + (1 + (n - p - 1))) at 2 by lia.
  pad_tac d.
Qed.

Lemma pad2 (A : Type) (d x y : A) (p q n : nat) :
  p < q -> q < n ->
  repeat d p ++ [x] ++ repeat d (q - p - 1) ++ [y] ++ repeat d (n - q - 1)
  = map (fun k => if k =? p then x else if k =? q then y else d) (seq 0 n).
Proof.
  intros Hp Hq.
  replace n with (p + (1 + ((q - p - 1) + (1 + (n - q - 1))))) at 2 by lia.
  pad_tac d.
Qed.

Lemma pad3 (A : Type) (d x y z : A) (p q r n : nat) :
  p < q -> q < r -> r < n ->
  repeat d p ++ [x] ++ repeat d (q - p - 1) ++ [y] ++ repeat d (r - q - 1)
    ++ [z] ++ repeat d (n - r - 1)
  = map (fun k => if k =? p then x else if k =? q then y
                  else if k =? r then z else d) (seq 0 n).
Proof.
  intros Hp Hq Hr.
  replace n with (p + (1 + ((q - p - 1) + (1 + ((r - q - 1) + (1 + (n - r - 1)))))))
    at 2 by lia.
  pad_tac d.
Qed.

(** ** The fold of [kron] over 2-D operands *)

Lemma fold_np_kron (l : list matrix) a :
  fold_left np_kron (map Arr2 l) (Arr2 a) = Arr2 (fold_left kron2 l a).
Proof. revert a. induction l as [|b l IH]; intros a; [reflexivity|]. cbn. apply IH. Qed.

Lemma kron2_unit_l r c a : 0 < r -> is_mat r c a -> kron2 [[1%C]] a = a.
Proof.
  intros Hr Ha. apply is_mat_ext with (r := r) (c := c); [| assumption |].
  - replace r with (1 * r) by lia. replace c with (1 * c) by lia.
    apply is_mat_kron2; try lia; try assumption.
    split; [reflexivity|]. repeat constructor.
  - intros i j Hi Hj.
    assert (0 < c) by lia.
    rewrite (get_kron2 (ra := 1) (ca := 1) (rb := r) (cb := c)); try lia; try assumption.
    + rewrite !Nat.div_small, !Nat.mod_small by lia. cbn [get nth]. ring.
    + split; [reflexivity|]. repeat constructor.
Qed.

(** [kron] of a list of 2 x 2 operators given by position is their tensor
    product. *)
Lemma kron_tensor n (h : nat -> matrix) :
  0 < n -> (forall k, k < n -> is_mat 2 2 (h k)) ->
  kron (map (fun k => Arr2 (h k)) (seq 0 n)) = OK (Arr2 (tensor n h)).
Proof.
  intros Hn Hh. destruct n as [|n]; [lia|].
  cbn [seq map kron]. f_equal.
  induction n as [|n IH].
  - cbn [seq map fold_left tensor]. f_equal. symmetry.
    apply kron2_unit_l with (r := 2) (c := 2); [lia | apply Hh; lia].
  - rewrite seq_S, map_app, fold_left_app, IH by (try lia; intros; apply Hh; lia).
    reflexivity.
Qed.

(** ** The basis catalog as 2 x 2 data *)

Ltac list_eq :=
  repeat match goal with
         | |- _ :: _ = _ :: _ => apply f_equal2
         | |- [] = [] => reflexivity
         end.

Ltac mcompute :=
  cbv [np_outer np_kron np_eye np_scale zero one I X pauli_x cnot ravel concat app mat
       kron2 mul2 madd dagger eye zeros projector0 projector1 nrows ncols get length map seq
       nth hd Nat.mul Nat.add Nat.sub Nat.div Nat.modulo Nat.divmod Nat.eqb Nat.max
       fst snd sum_to as2d of2d ndim idle place tensor fold_left kron].

Lemma outer_zero : np_outer zero zero = Arr2 projector0 :> ndarray (C:=C).
Proof. mcompute. f_equal. list_eq; ring. Qed.

Lemma outer_one : np_outer one one = Arr2 projector1 :> ndarray (C:=C).
Proof. mcompute. f_equal. list_eq; ring. Qed.

Lemma is_mat22 (x y z w : C) : is_mat 2 2 [[x; y]; [z; w]].
Proof. split; [reflexivity|]. repeat constructor. Qed.

Lemma is_mat22_inv m : is_mat 2 2 m -> exists x y z w, m = [[x; y]; [z; w]].
Proof.
  intros [Hl Hf]. destruct m as [|r1 [|r2 [|r3 m]]]; try discriminate.
  inversion Hf as [|? ? E1 Hf']. inversion Hf' as [|? ? E2 _]. subst.
  destruct r1 as [|x1 [|x2 [|? ?]]]; try discriminate.
  destruct r2 as [|x3 [|x4 [|? ?]]]; try discriminate.
  now exists x1, x2, x3, x4.
Qed.

Lemma is_mat_proj0 : is_mat 2 2 projector0.
Proof. apply is_mat22. Qed.

Lemma is_mat_proj1 : is_mat 2 2 projector1.
Proof. apply is_mat22. Qed.

(** Completeness of the projectors. *)
Lemma proj_complete : madd projector0 projector1 = eye 2.
Proof. mcompute. list_eq; ring. Qed.

Lemma is_mat_cnot : is_mat 4 4 (as2d (cnot (C:=C))).
Proof. split; [reflexivity|]. repeat constructor. Qed.

Lemma is_mat_X : is_mat 2 2 (pauli_x (C:=C)).
Proof. apply is_mat22. Qed.

Ltac shape_step2 :=
  match goal with
  | |- is_mat _ _ projector0 => apply is_mat_proj0
  | |- is_mat _ _ projector1 => apply is_mat_proj1
  | |- is_mat _ _ pauli_x => apply is_mat_X
  | |- is_mat _ _ (as2d cnot) => apply is_mat_cnot
  | |- is_mat _ _ (kron2 _ _) => apply is_mat_kron2
  | |- is_mat _ _ (madd _ _) => apply is_mat_madd
  | |- is_mat _ _ (dagger _) => apply is_mat_dagger
  | |- is_mat ?r ?c (mul2 _ _) => apply is_mat_mul2 with (n := r)
  | |- 0 < _ * _ => apply Nat.mul_pos_pos
  | _ => shape_step
  end.

Ltac shapes2 := repeat shape_step2.

(** ** Running [kron] on the padded lists of the source *)

Lemma np_add_same r c a b :
  0 < r -> is_mat r c a -> is_mat r c b ->
  np_add (Arr2 a) (Arr2 b) = OK (Arr2 (madd a b)).
Proof.
  intros Hr Ha Hb. unfold np_add. cbn [as2d ndim].
  now rewrite (add2_same Hr Ha Hb).
Qed.

Lemma kron_pad1 a p n :
  p < n -> is_mat 2 2 a ->
  kron (repeat I p ++ [Arr2 a] ++ repeat I (n - p - 1))
  = OK (Arr2 (tensor n (place p a idle))).
Proof.
  intros Hp Ha. rewrite pad1 by assumption.
  rewrite (map_ext _ (fun k => Arr2 (place p a idle k))).
  - apply kron_tensor; shapes.
  - intros k. unfold place. now destruct (k =? p).
Qed.

Lemma kron_pad2 a b p q n :
  p < q -> q < n -> is_mat 2 2 a -> is_mat 2 2 b ->
  kron (repeat I p ++ [Arr2 a] ++ repeat I (q - p - 1) ++ [Arr2 b]
        ++ repeat I (n - q - 1))
  = OK (Arr2 (tensor n (place p a (place q b idle)))).
Proof.
  intros Hp Hq Ha Hb. rewrite pad2 by assumption.
  rewrite (map_ext _ (fun k => Arr2 (place p a (place q b idle) k))).
  - apply kron_tensor; shapes.
  - intros k. unfold place. now destruct (k =? p), (k =? q).
Qed.

Lemma kron_pad3 a b d p q r n :
  p < q -> q < r -> r < n -> is_mat 2 2 a -> is_mat 2 2 b -> is_mat 2 2 d ->
  kron (repeat I p ++ [Arr2 a] ++ repeat I (q - p - 1) ++ [Arr2 b]
        ++ repeat I (r - q - 1) ++ [Arr2 d] ++ repeat I (n - r - 1))
  = OK (Arr2 (tensor n (place p a (place q b (place r d idle))))).
Proof.
  intros Hp Hq Hr Ha Hb Hd. rewrite pad3 by assumption.
  rewrite (map_ext _ (fun k => Arr2 (place p a (place q b (place r d idle)) k))).
  - apply kron_tensor; shapes.
  - intros k. unfold place. now destruct (k =? p), (k =? q), (k =? r).
Qed.

Lemma place_swap p q a b (h : nat -> matrix) k :
  p <> q -> place p a (place q b h) k = place q b (place p a h) k.
Proof.
  intros Hpq. unfold place.
  destruct (Nat.eqb_spec k p), (Nat.eqb_spec k q); congruence.
Qed.

(** The two validation tests of [control_gate] and [cnot_nonadj]. *)
Lemma bounds_pass c t n :
  (0 <= c <= n)%Z -> (0 <= t <= n)%Z ->
  negb ((0 <=? c)%Z && (c <=? n)%Z) || negb ((0 <=? t)%Z && (t <=? n)%Z) = false.
Proof.
  intros Hc Ht.
  destruct (Z.leb_spec 0 c), (Z.leb_spec c n), (Z.leb_spec 0 t), (Z.leb_spec t n);
    try lia; reflexivity.
Qed.

Lemma bounds_fail c t n :
  ~ (0 <= c <= n)%Z \/ ~ (0 <= t <= n)%Z ->
  negb ((0 <=? c)%Z && (c <=? n)%Z) || negb ((0 <=? t)%Z && (t <=? n)%Z) = true.
Proof.
  intros Hct.
  destruct (Z.leb_spec 0 c), (Z.leb_spec c n), (Z.leb_spec 0 t), (Z.leb_spec t n);
    try lia; reflexivity.
Qed.

(** What [control_gate] computes once its validation has passed and the
    target is inside the register: both terms have [max n (c + 1)] factors. *)
Lemma control_gate_run (gate : matrix) c t n :
  is_mat 2 2 gate -> (0 <= c <= n)%Z -> (0 <= t <= n - 1)%Z -> c <> t ->
  let k := Nat.max (Z.to_nat n) (Z.to_nat c + 1) in
  control_gate (Arr2 gate) c t n
  = OK (Arr2 (madd (tensor k (place (Z.to_nat c) projector0 idle))
                   (tensor k (place (Z.to_nat c) projector1 (place (Z.to_nat t) gate idle))))).
Proof.
  intros Hgate Hc Ht Hne k. unfold control_gate.
  destruct (Z.eqb_spec c t) as [|_]; [contradiction|].
  rewrite bounds_pass by lia.
  unfold add_gate, py_repeat. rewrite outer_zero, outer_one.
  replace (Z.to_nat (n - (c + 1))) with (k - Z.to_nat c - 1) by lia.
  rewrite kron_pad1 by (auto using is_mat_proj0; lia). cbn [bind].
  destruct (Z.ltb_spec c t) as [Hlt|Hgatee].
  - replace (Z.to_nat (t - c - 1)) with (Z.to_nat t - Z.to_nat c - 1) by lia.
    replace (Z.to_nat (n - t - 1)) with (k - Z.to_nat t - 1) by lia.
    rewrite kron_pad2 by (auto using is_mat_proj1; lia). cbn [bind].
    apply np_add_same with (r := 2 ^ k) (c := 2 ^ k); shapes;
      auto using is_mat_proj0, is_mat_proj1.
  - replace (Z.to_nat (c - t - 1)) with (Z.to_nat c - Z.to_nat t - 1) by lia.
    replace (Z.to_nat (n - c - 1)) with (k - Z.to_nat c - 1) by lia.
    rewrite kron_pad2 by (auto using is_mat_proj1; lia). cbn [bind].
    rewrite (tensor_ext (place (Z.to_nat t) gate (place (Z.to_nat c) projector1 idle))
                        (place (Z.to_nat c) projector1 (place (Z.to_nat t) gate idle)))
      by (intros; apply place_swap; lia).
    apply np_add_same with (r := 2 ^ k) (c := 2 ^ k); shapes;
      auto using is_mat_proj0, is_mat_proj1.
Qed.

(** ** [kron] and [+] as partial operations *)

Lemma kron_app_ok (l1 l2 : list (ndarray (C:=C))) x :
  exists r, kron (l1 ++ [x] ++ l2) = OK r.
Proof. destruct l1 as [|y l1]; cbn [app kron]; eauto. Qed.

Lemma np_add_cases (x y : ndarray (C:=C)) :
  (exists r, np_add x y = OK r)
  \/ np_add x y = Raise (ValueError "operands could not be broadcast together"%string).
Proof. unfold np_add. destruct (add2 (as2d x) (as2d y)); eauto. Qed.

Lemma broadcast_not_invalid :
  ~ InvalidQubitError (ValueError "operands could not be broadcast together"%string).
Proof. intros [E|[E|E]]; discriminate E. Qed.

(** Once the validation has passed, [control_gate] either returns or fails
    inside the backend's addition. *)
Lemma control_gate_validated (gate : ndarray) c t n :
  c <> t -> (0 <= c <= n)%Z -> (0 <= t <= n)%Z ->
  (exists r, control_gate gate c t n = OK r)
  \/ control_gate gate c t n
     = Raise (ValueError "operands could not be broadcast together"%string).
Proof.
  intros Hne Hc Ht. unfold control_gate.
  destruct (Z.eqb_spec c t) as [|_]; [contradiction|].
  rewrite bounds_pass by lia. unfold add_gate.
  destruct (kron_app_ok (py_repeat I c) (py_repeat I (n - (c + 1)))
                        (np_outer zero zero)) as [r0 ->].
  cbn [bind]. destruct (c <? t)%Z.
  - rewrite !app_assoc. rewrite <- (app_assoc _ [gate]).
    destruct (kron_app_ok ((py_repeat I c ++ [np_outer one one])
                             ++ py_repeat I (t - c - 1))
                          (py_repeat I (n - t - 1)) gate) as [r1 ->].
    cbn [bind]. apply np_add_cases.
  - rewrite !app_assoc. rewrite <- (app_assoc _ [np_outer one one]).
    destruct (kron_app_ok ((py_repeat I t ++ [gate])
                             ++ py_repeat I (c - t - 1))
                          (py_repeat I (n - c - 1)) (np_outer one one)) as [r1 ->].
    cbn [bind]. apply np_add_cases.
Qed.

Lemma cnot_nonadj_validated c t n :
  c <> t -> (0 <= c <= n)%Z -> (0 <= t <= n)%Z ->
  (exists r, cnot_nonadj (C:=C) c t n = OK r)
  \/ cnot_nonadj (C:=C) c t n
     = Raise (ValueError "operands could not be broadcast together"%string).
Proof.
  intros Hne Hc Ht. unfold cnot_nonadj.
  destruct (Z.eqb_spec c t) as [|_]; [contradiction|].
  rewrite bounds_pass by lia.
  destruct (kron_app_ok (py_repeat I c) (py_repeat I (n - c - 1))
                        (np_outer zero zero)) as [r0 ->].
  cbn [bind]. destruct (c <? t)%Z.
  - rewrite !app_assoc. rewrite <- (app_assoc _ [X]).
    destruct (kron_app_ok ((py_repeat I c ++ [np_outer one one])
                             ++ py_repeat I (t - c - 1))
                          (py_repeat I (n - t - 1)) X) as [r1 ->].
    cbn [bind]. apply np_add_cases.
  - rewrite !app_assoc. rewrite <- (app_assoc _ [np_outer one one]).
    destruct (kron_app_ok ((py_repeat I t ++ [X])
                             ++ py_repeat I (c - t - 1))
                          (py_repeat I (n - c - 1)) (np_outer one one)) as [r1 ->].
    cbn [bind]. apply np_add_cases.
Qed.

(** ** The adjacent fast path *)

Lemma tensor_app n e (h : nat -> matrix) :
  tensor (n + e) h = fold_left kron2 (map h (seq n e)) (tensor n h).
Proof.
  induction e as [|e IH].
  - now rewrite Nat.add_0_r.
  - rewrite seq_S, map_app, fold_left_app, <- IH, Nat.add_succ_r. reflexivity.
Qed.

Lemma is_mat_fold_kron2 (l : list matrix) r c a :
  0 < r -> is_mat r c a -> Forall (is_mat 2 2) l ->
  is_mat (r * 2 ^ length l) (c * 2 ^ length l) (fold_left kron2 l a).
Proof.
  revert r c a. induction l as [|b l IH]; intros r c a Hr Ha Hl.
  - cbn [length fold_left Nat.pow]. now rewrite !Nat.mul_1_r.
  - inversion Hl as [|? ? Hb Hl']; subst. cbn [length fold_left].
    rewrite Nat.pow_succ_r', !Nat.mul_assoc.
    apply IH; [lia | | assumption]. apply is_mat_kron2; auto; lia.
Qed.

Lemma fold_kron2_madd (l : list matrix) r c a b :
  0 < r -> is_mat r c a -> is_mat r c b -> Forall (is_mat 2 2) l ->
  fold_left kron2 l (madd a b) = madd (fold_left kron2 l a) (fold_left kron2 l b).
Proof.
  revert r c a b. induction l as [|d l IH]; intros r c a b Hr Ha Hb Hl.
  - reflexivity.
  - inversion Hl as [|? ? Hd Hl']; subst. cbn [fold_left].
    rewrite (kron2_madd_l (ra := r) (ca := c) (rb := 2) (cb := 2)); auto; try lia.
    apply IH with (r := r * 2) (c := c * 2); try assumption; try lia;
      apply is_mat_kron2; auto; lia.
Qed.

Lemma Forall_repeat (A : Type) (P : A -> Prop) (x : A) (n : nat) :
  P x -> Forall P (repeat x n).
Proof. intros Hx. induction n; cbn [repeat]; auto. Qed.

Lemma kron_repeat_I p :
  kron (repeat I (S p)) = OK (Arr2 (tensor (C:=C) (S p) idle)).
Proof.
  rewrite <- kron_tensor; shapes.
  f_equal. symmetry. now apply map_seq_const.
Qed.

(** [kron] over [p] identities followed by a 2-D operand and a tail. *)
Lemma kron_prefix p r c a (l : list ndarray) :
  0 < r -> is_mat r c a ->
  kron (repeat I p ++ [Arr2 a] ++ l)
  = OK (fold_left np_kron l (Arr2 (kron2 (tensor p idle) a))).
Proof.
  intros Hr Ha. destruct p as [|p].
  - cbn [repeat app kron tensor]. now rewrite (kron2_unit_l Hr Ha).
  - pose proof (kron_repeat_I p) as E. cbn [repeat kron] in E.
    injection E as E.
    cbn [repeat app kron]. now rewrite fold_left_app, E.
Qed.

Lemma cnot_nonadj_control_gate c t n :
  cnot_nonadj (C:=C) c t n = control_gate X c t n.
Proof.
  unfold cnot_nonadj, control_gate, add_gate.
  now replace (n - (c + 1))%Z with (n - c - 1)%Z by lia.
Qed.

(** The 4 x 4 CNOT matrix is its own projector decomposition. *)
Lemma cnot_decomposed :
  as2d cnot = madd (kron2 projector0 (eye 2)) (kron2 projector1 pauli_x) :> matrix (C:=C).
Proof. mcompute. list_eq; ring. Qed.

Lemma cnot_adj_run (i n : Z) :
  (0 <= i)%Z -> (i + 1 <= n - 1)%Z ->
  cnot_adj (C:=C) i (i + 1) n
  = OK (Arr2 (madd (tensor (Z.to_nat n) (place (Z.to_nat i) projector0 idle))
                   (tensor (Z.to_nat n)
                      (place (Z.to_nat i) projector1
                         (place (Z.to_nat (i + 1)) pauli_x idle))))).
Proof.
  intros Hi Hn. unfold cnot_adj. rewrite Z.eqb_refl. cbn [negb].
  unfold py_repeat.
  set (p := Z.to_nat i). set (e := Z.to_nat (n - (i + 1 + 1))).
  replace (Z.to_nat n) with (S (S p) + e) by lia.
  replace (Z.to_nat (i + 1)) with (S p) by lia.
  change cnot with (Arr2 (as2d (cnot (C:=C)))).
  rewrite (kron_prefix p (repeat I e) (r := 4) (c := 4)) by (lia || apply is_mat_cnot).
  change (@I C SC) with (Arr2 (eye (C:=C) 2)).
  rewrite <- map_repeat, fold_np_kron. do 2 f_equal.
  rewrite !tensor_app.
  rewrite !(@map_seq_const _ _ (eye 2))
    by (intros k Hk; unfold place, idle; eqb_cases; reflexivity).
  cbn [tensor].
  rewrite !(tensor_ext (place p _ _) idle)
    by (intros k Hk; unfold place, idle; eqb_cases; reflexivity).
  unfold place at 1 2 3 4 5 6. rewrite !Nat.eqb_refl.
  destruct (Nat.eqb_spec (S p) p) as [|_]; [lia|].
  destruct (Nat.eqb_spec p (S p)) as [|_]; [lia|].
  unfold idle at 2.
  assert (Ht : is_mat (2 ^ p) (2 ^ p) (tensor (C:=C) p idle)) by shapes.
  assert (He : Forall (is_mat (C:=C) 2 2) (repeat (eye 2) e))
    by (apply Forall_repeat, is_mat_eye).
  rewrite <- (fold_kron2_madd (r := 2 ^ p * 2 * 2) (c := 2 ^ p * 2 * 2));
    try assumption;
    try (repeat apply is_mat_kron2;
         auto using is_mat_proj0, is_mat_proj1, is_mat_eye, is_mat_X, pow2_pos; lia).
  - f_equal.
    rewrite !(kron2_assoc (ra := 2 ^ p) (ca := 2 ^ p) (rb := 2) (cb := 2)
                          (rc := 2) (cc := 2));
      auto using is_mat_proj0, is_mat_proj1, is_mat_eye, is_mat_X, pow2_pos.
    rewrite <- (kron2_madd_r (ra := 2 ^ p) (ca := 2 ^ p) (rb := 2 * 2) (cb := 2 * 2));
      try (apply is_mat_kron2);
      auto using is_mat_proj0, is_mat_proj1, is_mat_eye, is_mat_X, pow2_pos; try lia.
    unfold idle. now rewrite <- cnot_decomposed.
  - pose proof (pow2_pos p). nia.
  - shapes2.
  - shapes2.
Qed.

(** ** TOFFOLI *)

Lemma gate22_I : gate22 (I (C:=C)).
Proof. exists (eye 2). split; [reflexivity | apply is_mat_eye]. Qed.

Lemma gate22_X : gate22 (X (C:=C)).
Proof. exists pauli_x. split; [reflexivity | apply is_mat_X]. Qed.

Lemma gate22_outer_zero : gate22 (np_outer (C:=C) zero zero).
Proof. exists projector0. split; [apply outer_zero | apply is_mat_proj0]. Qed.

Lemma gate22_outer_one : gate22 (np_outer (C:=C) one one).
Proof. exists projector1. split; [apply outer_one | apply is_mat_proj1]. Qed.

Lemma Forall_gate22_map (l : list (ndarray (C:=C))) :
  Forall gate22 l -> exists ms, l = map Arr2 ms /\ Forall (is_mat 2 2) ms.
Proof.
  induction 1 as [|x l [m [-> Hm]] _ [ms [-> Hms]]].
  - now exists [].
  - exists (m :: ms). split; [reflexivity | now constructor].
Qed.

(** [kron] over a non-empty list of 2 x 2 operands returns a square matrix
    whose side is 2 to the length of the list. *)
Lemma kron_gates (l : list (ndarray (C:=C))) :
  l <> [] -> Forall gate22 l ->
  exists m, kron l = OK (Arr2 m) /\ is_mat (2 ^ length l) (2 ^ length l) m.
Proof.
  intros Hl Hf. destruct (Forall_gate22_map Hf) as [ms [-> Hms]].
  destruct ms as [|m ms]; [contradiction|].
  inversion Hms as [|? ? Hm Hms']; subst.
  cbn [map kron]. rewrite fold_np_kron. eexists. split; [reflexivity|].
  cbn [length]. rewrite length_map, Nat.pow_succ_r'.
  apply is_mat_fold_kron2; auto; lia.
Qed.

(** The four terms of one ordering branch and their sum. *)
Lemma four_terms_ok (l1 l2 l3 l4 : list (ndarray (C:=C))) :
  l1 <> [] ->
  Forall gate22 l1 -> Forall gate22 l2 -> Forall gate22 l3 -> Forall gate22 l4 ->
  length l2 = length l1 -> length l3 = length l1 -> length l4 = length l1 ->
  exists m,
    (term1 <- kron l1 ;; term2 <- kron l2 ;; term3 <- kron l3 ;; term4 <- kron l4 ;;
     s12 <- np_add term1 term2 ;; s123 <- np_add s12 term3 ;; np_add s123 term4)
    = OK (Arr2 m)
    /\ is_mat (2 ^ length l1) (2 ^ length l1) m.
Proof.
  intros Hne H1 H2 H3 H4 E2 E3 E4.
  assert (Hne2 : l2 <> []) by (destruct l1, l2; try discriminate; congruence).
  assert (Hne3 : l3 <> []) by (destruct l1, l3; try discriminate; congruence).
  assert (Hne4 : l4 <> []) by (destruct l1, l4; try discriminate; congruence).
  destruct (kron_gates Hne H1) as [m1 [-> S1]].
  destruct (kron_gates Hne2 H2) as [m2 [-> S2]].
  destruct (kron_gates Hne3 H3) as [m3 [-> S3]].
  destruct (kron_gates Hne4 H4) as [m4 [-> S4]].
  rewrite E2 in S2. rewrite E3 in S3. rewrite E4 in S4.
  cbn [bind].
  rewrite (np_add_same (pow2_pos _) S1 S2). cbn [bind].
  assert (S12 := is_mat_madd m2 (pow2_pos _) S1).
  rewrite (np_add_same (pow2_pos _) S12 S3). cbn [bind].
  assert (S123 := is_mat_madd m3 (pow2_pos _) S12).
  rewrite (np_add_same (pow2_pos _) S123 S4).
  eexists. split; [reflexivity|]. apply is_mat_madd; [apply pow2_pos | assumption].
Qed.

Lemma toffoli_checks_pass c1 c2 t n :
  c1 <> t -> c2 <> t ->
  (0 <= c1 <= n - 1)%Z -> (0 <= c2 <= n - 1)%Z -> (0 <= t <= n - 1)%Z ->
  ((c1 =? t)%Z || (c2 =? t)%Z = false)
  /\ (negb (in_range c1 n) || negb (in_range t n) || negb (in_range c2 n) = false).
Proof.
  intros H1 H2 R1 R2 Rt. unfold in_range. split.
  - destruct (Z.eqb_spec c1 t), (Z.eqb_spec c2 t); try contradiction; reflexivity.
  - destruct (Z.leb_spec 0 c1), (Z.leb_spec c1 (n - 1)), (Z.leb_spec 0 c2),
      (Z.leb_spec c2 (n - 1)), (Z.leb_spec 0 t), (Z.leb_spec t (n - 1));
      try lia; reflexivity.
Qed.

Ltac gate_list :=
  repeat first
    [ apply Forall_app; split
    | apply Forall_repeat
    | apply Forall_cons
    | apply Forall_nil
    | apply gate22_I | apply gate22_X
    | apply gate22_outer_zero | apply gate22_outer_one ].

Ltac same_length :=
  unfold py_repeat; rewrite !length_app, !repeat_length; reflexivity.

Ltac toffoli_branch :=
  match goal with
  | |- exists m, bind (kron ?l1) (fun _ => bind (kron ?l2) (fun _ =>
                   bind (kron ?l3) (fun _ => bind (kron ?l4) _))) = _ =>
      destruct (@four_terms_ok l1 l2 l3 l4) as [m [-> _]];
      [ intros E; apply (f_equal (@length _)) in E;
        unfold py_repeat in E; rewrite !length_app in E; cbn [length] in E; lia
      | gate_list | gate_list | gate_list | gate_list
      | same_length | same_length | same_length | eauto ]
  end.

(** Every call that passes the validation takes one of the three branches
    and returns. *)
Lemma TOFFOLI_returns c1 c2 t n :
  c1 <> t -> c2 <> t ->
  (0 <= c1 <= n - 1)%Z -> (0 <= c2 <= n - 1)%Z -> (0 <= t <= n - 1)%Z ->
  exists m, TOFFOLI (C:=C) c1 c2 t n = OK (Arr2 m).
Proof.
  intros H1 H2 R1 R2 Rt. unfold TOFFOLI.
  destruct (@toffoli_checks_pass c1 c2 t n H1 H2 R1 R2 Rt) as [-> ->].
  unfold sorted2.
  destruct (Z.leb_spec c1 c2) as [Hle|Hgt].
  - destruct (Z.ltb_spec c2 t); [toffoli_branch|].
    destruct (Z.ltb_spec c1 t), (Z.ltb_spec t c2); cbn [andb]; try lia;
      try toffoli_branch.
    destruct (Z.ltb_spec t c1); [toffoli_branch | lia].
  - destruct (Z.ltb_spec c1 t); [toffoli_branch|].
    destruct (Z.ltb_spec c2 t), (Z.ltb_spec t c1); cbn [andb]; try lia;
      try toffoli_branch.
    destruct (Z.ltb_spec t c2); [toffoli_branch | lia].
Qed.

(** ** Algebra of operators given by two or three slots *)

Ltac slotwise :=
  apply tensor_ext; intros ? _; unfold place, idle; eqb_cases; try reflexivity.

Lemma eye2_mul : mul2 (eye 2) (eye 2) = eye (C:=C) 2.
Proof. mcompute. list_eq; ring. Qed.

Lemma eye2_dagger : dagger (eye 2) = eye (C:=C) 2.
Proof. mcompute. now rewrite cconj_0, cconj_1. Qed.

Lemma proj0_dagger : dagger projector0 = projector0 (C:=C).
Proof. mcompute. now rewrite cconj_0, cconj_1. Qed.

Lemma proj1_dagger : dagger projector1 = projector1 (C:=C).
Proof. mcompute. now rewrite cconj_0, cconj_1. Qed.

Lemma X_dagger : dagger pauli_x = pauli_x (C:=C).
Proof. mcompute. now rewrite cconj_0, cconj_1. Qed.

Lemma proj00 : mul2 projector0 projector0 = projector0 (C:=C).
Proof. mcompute. list_eq; ring. Qed.

Lemma proj01 : mul2 projector0 projector1 = zeros (C:=C) 2 2.
Proof. mcompute. list_eq; ring. Qed.

Lemma proj10 : mul2 projector1 projector0 = zeros (C:=C) 2 2.
Proof. mcompute. list_eq; ring. Qed.

Lemma proj11 : mul2 projector1 projector1 = projector1 (C:=C).
Proof. mcompute. list_eq; ring. Qed.

Lemma X_involutive : mul2 pauli_x pauli_x = eye (C:=C) 2.
Proof. mcompute. list_eq; ring. Qed.

Lemma is_mat_two_slots n p q a b :
  is_mat 2 2 a -> is_mat 2 2 b -> is_mat (2 ^ n) (2 ^ n) (two_slots n p q a b).
Proof. intros Ha Hb. unfold two_slots. shapes. Qed.

Lemma is_mat_three_slots n p q r a b d :
  is_mat 2 2 a -> is_mat 2 2 b -> is_mat 2 2 d ->
  is_mat (2 ^ n) (2 ^ n) (three_slots n p q r a b d).
Proof. intros Ha Hb Hd. unfold three_slots. shapes. Qed.

Ltac shape_step3 :=
  match goal with
  | |- is_mat _ _ (two_slots _ _ _ _ _) => apply is_mat_two_slots
  | |- is_mat _ _ (three_slots _ _ _ _ _ _ _) => apply is_mat_three_slots
  | _ => shape_step2
  end.

Ltac shapes3 := repeat shape_step3.

Lemma two_slots_mul n p q a b a' b' :
  is_mat 2 2 a -> is_mat 2 2 b -> is_mat 2 2 a' -> is_mat 2 2 b' ->
  mul2 (two_slots n p q a b) (two_slots n p q a' b')
  = two_slots n p q (mul2 a a') (mul2 b b').
Proof.
  intros Ha Hb Ha' Hb'. unfold two_slots. rewrite tensor_mul2 by shapes.
  slotwise. apply eye2_mul.
Qed.

Lemma two_slots_dagger n p q a b :
  is_mat 2 2 a -> is_mat 2 2 b ->
  dagger (two_slots n p q a b) = two_slots n p q (dagger a) (dagger b).
Proof.
  intros Ha Hb. unfold two_slots. rewrite tensor_dagger by shapes.
  slotwise. apply eye2_dagger.
Qed.

Lemma two_slots_zero n p q b :
  p < n -> is_mat 2 2 b -> two_slots n p q (zeros 2 2) b = zeros (2 ^ n) (2 ^ n).
Proof.
  intros Hp Hb. unfold two_slots. apply tensor_zero with (p := p); shapes.
  apply place_same.
Qed.

Lemma two_slots_add n p q a a' b :
  p < n -> is_mat 2 2 a -> is_mat 2 2 a' -> is_mat 2 2 b ->
  madd (two_slots n p q a b) (two_slots n p q a' b)
  = two_slots n p q (madd a a') b.
Proof. intros Hp Ha Ha' Hb. unfold two_slots. apply tensor_place_madd; shapes. Qed.

Lemma two_slots_eye n p q : two_slots n p q (eye 2) (eye 2) = eye (2 ^ n).
Proof.
  unfold two_slots. rewrite <- tensor_idle. slotwise.
Qed.

Lemma three_slots_mul n p q r a b d a' b' d' :
  is_mat 2 2 a -> is_mat 2 2 b -> is_mat 2 2 d ->
  is_mat 2 2 a' -> is_mat 2 2 b' -> is_mat 2 2 d' ->
  mul2 (three_slots n p q r a b d) (three_slots n p q r a' b' d')
  = three_slots n p q r (mul2 a a') (mul2 b b') (mul2 d d').
Proof.
  intros Ha Hb Hd Ha' Hb' Hd'. unfold three_slots. rewrite tensor_mul2 by shapes.
  slotwise. apply eye2_mul.
Qed.

Lemma three_slots_dagger n p q r a b d :
  is_mat 2 2 a -> is_mat 2 2 b -> is_mat 2 2 d ->
  dagger (three_slots n p q r a b d)
  = three_slots n p q r (dagger a) (dagger b) (dagger d).
Proof.
  intros Ha Hb Hd. unfold three_slots. rewrite tensor_dagger by shapes.
  slotwise. apply eye2_dagger.
Qed.

Lemma three_slots_zero_p n p q r b d :
  p < n -> is_mat 2 2 b -> is_mat 2 2 d ->
  three_slots n p q r (zeros 2 2) b d = zeros (2 ^ n) (2 ^ n).
Proof.
  intros Hp Hb Hd. unfold three_slots. apply tensor_zero with (p := p); shapes.
  apply place_same.
Qed.

Lemma three_slots_zero_q n p q r a d :
  q < n -> p <> q -> is_mat 2 2 a -> is_mat 2 2 d ->
  three_slots n p q r a (zeros 2 2) d = zeros (2 ^ n) (2 ^ n).
Proof.
  intros Hq Hpq Ha Hd. unfold three_slots. apply tensor_zero with (p := q); shapes.
  rewrite place_other by lia. apply place_same.
Qed.

Lemma three_slots_add_p n p q r a a' b d :
  p < n -> is_mat 2 2 a -> is_mat 2 2 a' -> is_mat 2 2 b -> is_mat 2 2 d ->
  madd (three_slots n p q r a b d) (three_slots n p q r a' b d)
  = three_slots n p q r (madd a a') b d.
Proof.
  intros Hp Ha Ha' Hb Hd. unfold three_slots. apply tensor_place_madd; shapes.
Qed.

Lemma three_slots_add_q n p q r a b b' d :
  q < n -> p <> q -> is_mat 2 2 a -> is_mat 2 2 b -> is_mat 2 2 b' -> is_mat 2 2 d ->
  madd (three_slots n p q r a b d) (three_slots n p q r a b' d)
  = three_slots n p q r a (madd b b') d.
Proof.
  intros Hq Hpq Ha Hb Hb' Hd. unfold three_slots.
  rewrite !(tensor_ext (place p a (place q _ (place r d idle)))
                       (place q _ (place p a (place r d idle))))
    by (intros; apply place_swap; lia).
  apply tensor_place_madd; shapes.
Qed.

Lemma three_slots_eye n p q r :
  three_slots n p q r (eye 2) (eye 2) (eye 2) = eye (2 ^ n).
Proof.
  unfold three_slots. rewrite <- tensor_idle. slotwise.
Qed.

(** ** What TOFFOLI computes on three distinct positions *)

Lemma slots_132 n p q r (a b d : matrix (C:=C)) :
  q <> r ->
  tensor n (place p a (place r d (place q b idle))) = three_slots n p q r a b d.
Proof. intros. unfold three_slots. slotwise. Qed.

Lemma slots_312 n p q r (a b d : matrix (C:=C)) :
  p <> r -> q <> r ->
  tensor n (place r d (place p a (place q b idle))) = three_slots n p q r a b d.
Proof. intros. unfold three_slots. slotwise. Qed.

Ltac toffoli_run_branch lo hi t :=
  rewrite ?outer_zero, ?outer_one;
  change (@I C SC) with (Arr2 (eye (C:=C) 2));
  change (@X C SC) with (Arr2 (pauli_x (C:=C)));
  unfold py_repeat;
  repeat match goal with
         | |- context [Z.to_nat (?x - ?y - 1)] =>
             replace (Z.to_nat (x - y - 1)) with (Z.to_nat x - Z.to_nat y - 1) by lia
         end;
  rewrite !kron_pad3 by (try lia; shapes2);
  cbn [bind];
  rewrite ?(@slots_132 _ (Z.to_nat lo) (Z.to_nat hi) (Z.to_nat t)),
          ?(@slots_312 _ (Z.to_nat lo) (Z.to_nat hi) (Z.to_nat t)) by lia;
  fold (three_slots (C:=C));
  repeat (rewrite (np_add_same (r := 2 ^ _) (c := 2 ^ _)) by shapes3; cbn [bind]);
  reflexivity.

Lemma TOFFOLI_run c1 c2 t n :
  c1 <> c2 -> c1 <> t -> c2 <> t ->
  (0 <= c1 <= n - 1)%Z -> (0 <= c2 <= n - 1)%Z -> (0 <= t <= n - 1)%Z ->
  let Q := three_slots (Z.to_nat n) (Z.to_nat (Z.min c1 c2))
                       (Z.to_nat (Z.max c1 c2)) (Z.to_nat t) in
  TOFFOLI (C:=C) c1 c2 t n
  = OK (Arr2 (madd (madd (madd (Q projector0 projector0 (eye 2)) (Q projector1 projector0 (eye 2)))
                         (Q projector0 projector1 (eye 2)))
                   (Q projector1 projector1 pauli_x))).
Proof.
  intros H12 H1 H2 R1 R2 Rt Q. unfold TOFFOLI.
  destruct (@toffoli_checks_pass c1 c2 t n H1 H2 R1 R2 Rt) as [-> ->].
  unfold sorted2.
  destruct (Z.leb_spec c1 c2) as [Hle|Hgt].
  - subst Q. replace (Z.min c1 c2) with c1 by lia.
    replace (Z.max c1 c2) with c2 by lia.
    destruct (Z.ltb_spec c2 t); [toffoli_run_branch c1 c2 t|].
    destruct (Z.ltb_spec c1 t), (Z.ltb_spec t c2); cbn [andb]; try lia;
      try toffoli_run_branch c1 c2 t.
    destruct (Z.ltb_spec t c1); [toffoli_run_branch c1 c2 t | lia].
  - subst Q. replace (Z.min c1 c2) with c2 by lia.
    replace (Z.max c1 c2) with c1 by lia.
    destruct (Z.ltb_spec c1 t); [toffoli_run_branch c2 c1 t|].
    destruct (Z.ltb_spec c2 t), (Z.ltb_spec t c1); cbn [andb]; try lia;
      try toffoli_run_branch c2 c1 t.
    destruct (Z.ltb_spec t c2); [toffoli_run_branch c2 c1 t | lia].
Qed.

(** ** Unitarity of the projector decompositions *)

Lemma control_gate_unitary_run (gate : matrix) n c t :
  c < n -> t < n -> c <> t -> is_mat 2 2 gate -> mul2 gate (dagger gate) = eye 2 ->
  let op := madd (tensor n (place c projector0 idle))
                 (tensor n (place c projector1 (place t gate idle))) in
  mul2 op (dagger op) = eye (2 ^ n).
Proof.
  intros Hc Ht Hne Hg Hu op. subst op.
  rewrite (tensor_ext (place c projector0 idle) (place c projector0 (place t (eye 2) idle)))
    by (intros ? _; unfold place, idle; eqb_cases; reflexivity).
  fold (two_slots n c t projector0 (eye 2)). fold (two_slots n c t projector1 gate).
  rewrite (dagger_madd (r := 2 ^ n) (c := 2 ^ n)) by shapes3.
  rewrite !two_slots_dagger by shapes3.
  rewrite proj0_dagger, proj1_dagger, eye2_dagger.
  rewrite (mul2_madd_l (r := 2 ^ n) (n := 2 ^ n) (c := 2 ^ n)) by shapes3.
  rewrite !(mul2_madd_r (r := 2 ^ n) (n := 2 ^ n) (c := 2 ^ n)) by shapes3.
  rewrite !two_slots_mul by shapes3.
  rewrite proj00, proj01, proj10, proj11, eye2_mul, Hu.
  rewrite !two_slots_zero by shapes3.
  rewrite (madd_zeros_r (r := 2 ^ n) (c := 2 ^ n)) by shapes3.
  rewrite (madd_zeros_l (r := 2 ^ n) (c := 2 ^ n)) by shapes3.
  rewrite two_slots_add by shapes3.
  rewrite proj_complete. apply two_slots_eye.
Qed.

Lemma toffoli_unitary_run n p q r :
  p < n -> q < n -> r < n -> p <> q -> p <> r -> q <> r ->
  let Q := three_slots (C:=C) n p q r in
  let op := madd (madd (madd (Q projector0 projector0 (eye 2)) (Q projector1 projector0 (eye 2)))
                       (Q projector0 projector1 (eye 2)))
                 (Q projector1 projector1 pauli_x) in
  mul2 op (dagger op) = eye (2 ^ n).
Proof.
  intros Hp Hq Hr Hpq Hpr Hqr Q op. subst op Q.
  rewrite !(dagger_madd (r := 2 ^ n) (c := 2 ^ n)) by shapes3.
  rewrite !three_slots_dagger by shapes3.
  rewrite proj0_dagger, proj1_dagger, eye2_dagger, X_dagger.
  rewrite !(mul2_madd_l (r := 2 ^ n) (n := 2 ^ n) (c := 2 ^ n)) by shapes3.
  rewrite !(mul2_madd_r (r := 2 ^ n) (n := 2 ^ n) (c := 2 ^ n)) by shapes3.
  rewrite !three_slots_mul by shapes3.
  rewrite proj00, proj01, proj10, proj11, eye2_mul, X_involutive.
  rewrite !three_slots_zero_p by shapes3.
  rewrite !three_slots_zero_q by (try lia; shapes3).
  rewrite !(madd_zeros_r (r := 2 ^ n) (c := 2 ^ n)) by shapes3.
  rewrite !(madd_zeros_l (r := 2 ^ n) (c := 2 ^ n)) by shapes3.
  rewrite three_slots_add_p by shapes3.
  rewrite (madd_assoc (r := 2 ^ n) (c := 2 ^ n)) by shapes3.
  rewrite three_slots_add_p by shapes3.
  rewrite three_slots_add_q by (try lia; shapes3).
  rewrite proj_complete. apply three_slots_eye.
Qed.

(** The target index [num_qubits] passes the inclusive validation as well,
    but then the two terms have different sizes and the backend's addition
    raises. *)
Lemma control_gate_target_past_end (gate : matrix) (c n : Z) :
  is_mat 2 2 gate -> (0 <= c <= n - 1)%Z ->
  control_gate (Arr2 gate) c n n
  = Raise (ValueError "operands could not be broadcast together"%string).
Proof.
  intros Hgate Hc. unfold control_gate.
  destruct (Z.eqb_spec c n) as [|_]; [lia|].
  rewrite bounds_pass by lia.
  destruct (Z.ltb_spec c n) as [_|]; [|lia].
  unfold add_gate, py_repeat. rewrite outer_zero, outer_one.
  replace (Z.to_nat (n - (c + 1))) with (Z.to_nat n - Z.to_nat c - 1) by lia.
  rewrite kron_pad1 by (auto using is_mat_proj0; lia). cbn [bind].
  replace (Z.to_nat (n - c - 1)) with (Z.to_nat n - Z.to_nat c - 1) by lia.
  replace (Z.to_nat (n - n - 1)) with (S (Z.to_nat n) - Z.to_nat n - 1) by lia.
  rewrite kron_pad2 by (auto using is_mat_proj1; lia). cbn [bind].
  unfold np_add, add2. cbn [as2d].
  rewrite !(is_mat_nrows (r := 2 ^ Z.to_nat n) (c := 2 ^ Z.to_nat n)) by shapes3.
  rewrite !(is_mat_nrows (r := 2 ^ S (Z.to_nat n)) (c := 2 ^ S (Z.to_nat n))) by shapes3.
  unfold bdim.
  assert (E : 2 ^ S (Z.to_nat n) = 2 * 2 ^ Z.to_nat n) by apply Nat.pow_succ_r'.
  assert (2 <= 2 ^ Z.to_nat n).
  { replace (Z.to_nat n) with (S (Z.to_nat n - 1)) by lia.
    rewrite Nat.pow_succ_r'. pose proof (pow2_pos (Z.to_nat n - 1)). lia. }
  destruct (Nat.eqb_spec (2 ^ Z.to_nat n) (2 ^ S (Z.to_nat n))); [lia|].
  destruct (Nat.eqb_spec (2 ^ Z.to_nat n) 1); [lia|].
  destruct (Nat.eqb_spec (2 ^ S (Z.to_nat n)) 1); [lia|].
  reflexivity.
Qed.

(** ** Action on the basis states of the register *)

Lemma is_mat_ket (x : bool) : is_mat 2 1 (ket (C:=C) x).
Proof. destruct x; (split; [reflexivity | repeat constructor]). Qed.

Lemma is_col_tensor n (v : nat -> matrix) :
  (forall k, k < n -> is_mat 2 1 (v k)) -> is_mat (2 ^ n) 1 (tensor n v).
Proof.
  induction n as [|n IH]; intros Hv.
  - split; [reflexivity|]. repeat constructor.
  - cbn [tensor]. rewrite Nat.pow_succ_r', (Nat.mul_comm 2).
    apply (@is_mat_kron2 (2 ^ n) 1 2 1 (tensor n v) (v n)); auto using pow2_pos.
Qed.

Lemma tensor_apply n (h v : nat -> matrix) :
  (forall k, k < n -> is_mat 2 2 (h k)) ->
  (forall k, k < n -> is_mat 2 1 (v k)) ->
  mul2 (tensor n h) (tensor n v) = tensor n (fun k => mul2 (h k) (v k)).
Proof.
  induction n as [|n IH]; intros Hh Hv.
  - cbv [tensor mul2 mat nrows ncols get seq map hd nth length sum_to].
    do 2 f_equal. ring.
  - cbn [tensor]. rewrite <- IH by auto.
    apply kron2_mul2 with (r1 := 2 ^ n) (n1 := 2 ^ n) (c1 := 1)
                          (r2 := 2) (n2 := 2) (c2 := 1);
      auto using pow2_pos, is_mat_tensor, is_col_tensor.
Qed.

Lemma tensor_zero_col n p (v : nat -> matrix) :
  p < n -> (forall k, k < n -> is_mat 2 1 (v k)) -> v p = zeros 2 1 ->
  tensor n v = zeros (2 ^ n) 1.
Proof.
  induction n as [|n IH]; intros Hp Hv Hz; [lia|].
  cbn [tensor]. rewrite Nat.pow_succ_r', (Nat.mul_comm 2).
  change (zeros (2 ^ n * 2) 1) with (zeros (C:=C) (2 ^ n * 2) (1 * 1)).
  destruct (Nat.eq_dec p n) as [->|Hne].
  - rewrite Hz. apply kron2_zeros_r; auto using pow2_pos, is_col_tensor.
  - rewrite IH by (auto; lia). apply kron2_zeros_l; auto using pow2_pos.
Qed.

Lemma projector0_ket (x : bool) :
  mul2 projector0 (ket x) = if x then zeros 2 1 else ket (C:=C) false.
Proof. destruct x; cbv [ket]; mcompute; list_eq; ring. Qed.

Lemma projector1_ket (x : bool) :
  mul2 projector1 (ket x) = if x then ket (C:=C) true else zeros 2 1.
Proof. destruct x; cbv [ket]; mcompute; list_eq; ring. Qed.

Lemma eye2_ket (x : bool) : mul2 (eye 2) (ket x) = ket (C:=C) x.
Proof. destruct x; cbv [ket]; mcompute; list_eq; ring. Qed.

Lemma is_mat_gate_ket (gate : matrix) (x : bool) :
  is_mat 2 2 gate -> is_mat 2 1 (mul2 gate (ket x)).
Proof. intros Hg. apply is_mat_mul2 with (n := 2); auto using is_mat_ket. Qed.

(** The projector decomposition applies the gate to the target qubit of a
    basis state when its control qubit is 1 and leaves the state alone when
    its control qubit is 0. *)
Lemma projector_sum_action (gate : matrix) n c t (q : nat -> bool) :
  c < n -> t < n -> c <> t -> is_mat 2 2 gate ->
  mul2 (madd (tensor n (place c projector0 idle))
             (tensor n (place c projector1 (place t gate idle))))
       (register n q)
  = tensor n (fun k => if (k =? t) && q c then mul2 gate (ket (q k))
                       else ket (q k)).
Proof.
  intros Hc Ht Hne Hg. unfold register.
  assert (Hk : forall k, k < n -> is_mat 2 1 (ket (C:=C) (q k)))
    by (intros; apply is_mat_ket).
  rewrite (mul2_madd_l (r := 2 ^ n) (n := 2 ^ n) (c := 1))
    by (shapes2; now apply is_col_tensor).
  rewrite !tensor_apply by (shapes2; try apply is_mat_ket).
  destruct (q c) eqn:Eq.
  - rewrite (@tensor_zero_col n c
               (fun k => mul2 (place c projector0 idle k) (ket (q k)))).
    + rewrite (madd_zeros_l (r := 2 ^ n) (c := 1)).
      * apply tensor_ext. intros k Hkn. unfold place, idle.
        rewrite andb_true_r.
        destruct (Nat.eqb_spec k c) as [->|Hkc].
        -- destruct (Nat.eqb_spec c t) as [|_]; [lia|].
           now rewrite projector1_ket, Eq.
        -- destruct (Nat.eqb_spec k t); [reflexivity | apply eye2_ket].
      * apply pow2_pos.
      * apply is_col_tensor. intros k Hkn. unfold place, idle.
        destruct (k =? c), (k =? t);
          apply is_mat_mul2 with (n := 2); shapes2; apply is_mat_ket.
    + assumption.
    + intros k Hkn. unfold place, idle.
      destruct (k =? c); apply is_mat_mul2 with (n := 2); shapes2; apply is_mat_ket.
    + rewrite place_same, projector0_ket, Eq. reflexivity.
  - rewrite (@tensor_zero_col n c
               (fun k => mul2 (place c projector1 (place t gate idle) k)
                              (ket (q k)))).
    + rewrite (madd_zeros_r (r := 2 ^ n) (c := 1)).
      * apply tensor_ext. intros k Hkn. unfold place, idle.
        rewrite andb_false_r.
        destruct (Nat.eqb_spec k c) as [->|Hkc].
        -- now rewrite projector0_ket, Eq.
        -- apply eye2_ket.
      * apply pow2_pos.
      * apply is_col_tensor. intros k Hkn. unfold place, idle.
        destruct (k =? c); apply is_mat_mul2 with (n := 2); shapes2; apply is_mat_ket.
    + assumption.
    + intros k Hkn. unfold place, idle.
      destruct (k =? c), (k =? t);
        apply is_mat_mul2 with (n := 2); shapes2; apply is_mat_ket.
    + rewrite place_same, projector1_ket, Eq. reflexivity.
Qed.

(** * The claims *)

(** C1.  For a 2 x 2 gate and distinct control and target inside a register of
    [n >= 1] qubits, [control_gate] returns the [2^n] x [2^n] operator that is
    the sum of two tensor products: the projector on [|0>] at the control
    position and identity elsewhere, plus the projector on [|1>] at the
    control position, the gate at the target position and identity
    elsewhere -- whichever of the two positions comes first.  On a basis
    state of the register this operator applies the gate to the target qubit
    when the control qubit is 1 and changes nothing when it is 0. *)
Theorem control_gate_projector_sum (gate : matrix) (c t n : Z) :
  is_mat 2 2 gate ->
  (1 <= n)%Z -> (0 <= c <= n - 1)%Z -> (0 <= t <= n - 1)%Z -> c <> t ->
  let op := madd (tensor (Z.to_nat n) (place (Z.to_nat c) projector0 idle))
                 (tensor (Z.to_nat n)
                         (place (Z.to_nat c) projector1
                                (place (Z.to_nat t) gate idle))) in
  control_gate (Arr2 gate) c t n = OK (Arr2 op)
  /\ shape (Arr2 op) = [2 ^ Z.to_nat n; 2 ^ Z.to_nat n]
  /\ (forall q : nat -> bool,
        mul2 op (register (Z.to_nat n) q)
        = tensor (Z.to_nat n)
            (fun k => if (k =? Z.to_nat t) && q (Z.to_nat c)
                      then mul2 gate (ket (q k)) else ket (q k))).
Proof.
  intros Hgate Hn Hc Ht Hne op. split; [|split].
  - rewrite control_gate_run by (assumption || lia).
    now replace (Nat.max (Z.to_nat n) (Z.to_nat c + 1)) with (Z.to_nat n) by lia.
  - assert (Hop : is_mat (2 ^ Z.to_nat n) (2 ^ Z.to_nat n) op).
    { apply is_mat_madd; shapes; auto using is_mat_proj0. }
    cbn [shape]. rewrite (is_mat_nrows Hop).
    now rewrite (is_mat_ncols (pow2_pos _) Hop).
  - intros q. apply projector_sum_action; (assumption || lia).
Qed.

(** C8.  With the identity as the gate, [control_gate] returns the
    [2^n] x [2^n] identity for every valid control/target pair. *)
Theorem control_gate_identity (c t n : Z) :
  (1 <= n)%Z -> (0 <= c <= n - 1)%Z -> (0 <= t <= n - 1)%Z -> c <> t ->
  control_gate I c t n = OK (np_eye (2 ^ Z.to_nat n)).
Proof.
  intros Hn Hc Ht Hne. change (@I C SC) with (Arr2 (eye (C:=C) 2)).
  rewrite control_gate_run by (auto using is_mat_eye; lia).
  replace (Nat.max (Z.to_nat n) (Z.to_nat c + 1)) with (Z.to_nat n) by lia.
  change (np_eye (2 ^ Z.to_nat n)) with (Arr2 (eye (C:=C) (2 ^ Z.to_nat n))).
  do 2 f_equal.
  rewrite (tensor_ext (place (Z.to_nat c) projector1 (place (Z.to_nat t) (eye 2) idle))
                      (place (Z.to_nat c) projector1 idle)).
  - rewrite tensor_place_madd; shapes; auto using is_mat_proj0, is_mat_proj1.
    rewrite proj_complete.
    rewrite (tensor_ext (place (Z.to_nat c) (eye 2) idle) idle).
    + apply tensor_idle.
    + intros k _. unfold place, idle. now destruct (k =? Z.to_nat c).
  - intros k _. unfold place, idle.
    now destruct (k =? Z.to_nat c), (k =? Z.to_nat t).
Qed.

(** C10.  The inclusive bound lets the control index [num_qubits] through:
    for a 2 x 2 gate and a target inside the register the call raises nothing
    and returns an operator on [n + 1] qubits, of shape
    [2^(n+1)] x [2^(n+1)], not [2^n] x [2^n]. *)
Theorem control_gate_control_past_end (gate : matrix) (t n : Z) :
  is_mat 2 2 gate -> (1 <= n)%Z -> (0 <= t <= n - 1)%Z ->
  exists op,
    control_gate (Arr2 gate) n t n = OK op
    /\ shape op = [2 ^ (Z.to_nat n + 1); 2 ^ (Z.to_nat n + 1)]
    /\ shape op <> [2 ^ Z.to_nat n; 2 ^ Z.to_nat n].
Proof.
  intros Hgate Hn Ht.
  rewrite control_gate_run by (assumption || lia).
  replace (Nat.max (Z.to_nat n) (Z.to_nat n + 1)) with (Z.to_nat n + 1) by lia.
  eexists. split; [reflexivity|].
  match goal with |- shape (Arr2 ?m) = _ /\ _ =>
    assert (Hop : is_mat (2 ^ (Z.to_nat n + 1)) (2 ^ (Z.to_nat n + 1)) m)
  end.
  { apply is_mat_madd; shapes; auto using is_mat_proj0. }
  cbn [shape]. rewrite (is_mat_nrows Hop), (is_mat_ncols (pow2_pos _) Hop).
  split; [reflexivity|]. intros E. injection E as E _.
  apply Nat.pow_inj_r in E; lia.
Qed.

(** C5.  [control_gate] and [cnot_nonadj] raise a validation error exactly
    when control equals target or an index lies outside the inclusive range
    [0 .. num_qubits]; the result is then the error alone.  In particular
    [control_gate(X, c, c, n)] fails for every [c] and [n]. *)
Theorem controlled_validation :
  (forall (gate : ndarray (C:=C)) (c t n : Z),
      (exists e, control_gate gate c t n = Raise e /\ InvalidQubitError e)
      <-> (c = t \/ ~ (0 <= c <= n)%Z \/ ~ (0 <= t <= n)%Z))
  /\ (forall c t n : Z,
        (exists e, cnot_nonadj (C:=C) c t n = Raise e /\ InvalidQubitError e)
        <-> (c = t \/ ~ (0 <= c <= n)%Z \/ ~ (0 <= t <= n)%Z))
  /\ (forall c n : Z,
        exists e, control_gate (C:=C) X c c n = Raise e /\ InvalidQubitError e).
Proof.
  split; [|split].
  - intros gate c t n. split.
    + intros [e [Hr He]].
      destruct (Z.eq_dec c t) as [|Hne]; [now left|]. right.
      destruct (Z_le_dec 0 c), (Z_le_dec c n), (Z_le_dec 0 t), (Z_le_dec t n);
        try (left; lia); try (right; lia).
      exfalso.
      destruct (@control_gate_validated gate c t n) as [[r Hok]|Hb];
        try assumption; try lia.
      * congruence.
      * rewrite Hb in Hr. injection Hr as <-. now apply broadcast_not_invalid.
    + intros [->|Hb].
      * eexists. unfold control_gate. rewrite Z.eqb_refl.
        split; [reflexivity|]. now left.
      * unfold control_gate. destruct (c =? t)%Z.
        -- eexists. split; [reflexivity|]. now left.
        -- rewrite bounds_fail by assumption.
           eexists. split; [reflexivity|]. right. now left.
  - intros c t n. split.
    + intros [e [Hr He]].
      destruct (Z.eq_dec c t) as [|Hne]; [now left|]. right.
      destruct (Z_le_dec 0 c), (Z_le_dec c n), (Z_le_dec 0 t), (Z_le_dec t n);
        try (left; lia); try (right; lia).
      exfalso.
      destruct (@cnot_nonadj_validated c t n) as [[r Hok]|Hb];
        try assumption; try lia.
      * congruence.
      * rewrite Hb in Hr. injection Hr as <-. now apply broadcast_not_invalid.
    + intros [->|Hb].
      * eexists. unfold cnot_nonadj. rewrite Z.eqb_refl.
        split; [reflexivity|]. now left.
      * unfold cnot_nonadj. destruct (c =? t)%Z.
        -- eexists. split; [reflexivity|]. now left.
        -- rewrite bounds_fail by assumption.
           eexists. split; [reflexivity|]. right. now left.
  - intros c n. eexists. unfold control_gate. rewrite Z.eqb_refl.
    split; [reflexivity|]. now left.
Qed.

(** C9.  [kron] is a left fold of [np.kron]: on a single operand it returns
    that operand, and on three operands it returns what it returns on the
    result for the first two followed by the third. *)
Theorem kron_left_fold :
  (forall x : ndarray (C:=C), kron [x] = OK x)
  /\ (forall x y z : ndarray (C:=C),
        kron [x; y; z] = (xy <- kron [x; y] ;; kron [xy; z]))
  /\ (forall x y z : ndarray (C:=C),
        kron [x; y; z] = OK (np_kron (np_kron x y) z)).
Proof. repeat split. Qed.

(** C3.  On an adjacent pair inside the register the fast path [cnot_adj]
    and the projector decomposition [cnot_nonadj] return the same
    [2^n] x [2^n] matrix. *)
Theorem cnot_adj_agrees_with_cnot_nonadj (i n : Z) :
  (0 <= i)%Z -> (i + 1 <= n - 1)%Z ->
  cnot_adj (C:=C) i (i + 1) n = cnot_nonadj i (i + 1) n
  /\ exists op, cnot_adj (C:=C) i (i + 1) n = OK op
               /\ shape op = [2 ^ Z.to_nat n; 2 ^ Z.to_nat n].
Proof.
  intros Hi Hn.
  assert (E : cnot_nonadj (C:=C) i (i + 1) n = cnot_adj i (i + 1) n).
  { rewrite cnot_nonadj_control_gate, cnot_adj_run by assumption.
    change (@X C SC) with (Arr2 (pauli_x (C:=C))).
    rewrite control_gate_run by (apply is_mat_X || lia).
    now replace (Nat.max (Z.to_nat n) (Z.to_nat i + 1)) with (Z.to_nat n) by lia. }
  split; [now rewrite E|].
  rewrite cnot_adj_run by assumption. eexists. split; [reflexivity|].
  match goal with |- shape (Arr2 ?m) = _ =>
    assert (Hop : is_mat (2 ^ Z.to_nat n) (2 ^ Z.to_nat n) m)
  end.
  { apply is_mat_madd; shapes; auto using is_mat_proj0. }
  cbn [shape]. now rewrite (is_mat_nrows Hop), (is_mat_ncols (pow2_pos _) Hop).
Qed.

(** C4.  For a unitary 2 x 2 gate and a valid index combination the operator
    returned by [control_gate] is unitary on the [2^n]-dimensional space, and so
    is the operator returned by [TOFFOLI] on three distinct positions inside
    the register. *)
Theorem controlled_operators_unitary :
  (forall (gate : matrix (C:=C)) (c t n : Z),
      is_mat 2 2 gate -> unitary gate ->
      (0 <= c <= n - 1)%Z -> (0 <= t <= n - 1)%Z -> c <> t ->
      exists op, control_gate (Arr2 gate) c t n = OK (Arr2 op)
                 /\ mul2 op (dagger op) = eye (2 ^ Z.to_nat n))
  /\ (forall c1 c2 t n : Z,
        c1 <> c2 -> c1 <> t -> c2 <> t ->
        (0 <= c1 <= n - 1)%Z -> (0 <= c2 <= n - 1)%Z -> (0 <= t <= n - 1)%Z ->
        exists op, TOFFOLI (C:=C) c1 c2 t n = OK (Arr2 op)
                   /\ mul2 op (dagger op) = eye (2 ^ Z.to_nat n)).
Proof.
  split.
  - intros gate c t n Hgate Hu Hc Ht Hne.
    rewrite control_gate_run by (assumption || lia).
    replace (Nat.max (Z.to_nat n) (Z.to_nat c + 1)) with (Z.to_nat n) by lia.
    eexists. split; [reflexivity|].
    apply control_gate_unitary_run; try lia; try assumption.
    unfold unitary in Hu. now rewrite (is_mat_nrows Hgate) in Hu.
  - intros c1 c2 t n H12 H1 H2 R1 R2 Rt.
    rewrite TOFFOLI_run by assumption.
    eexists. split; [reflexivity|].
    apply toffoli_unitary_run; lia.
Qed.

(** C6.  On every input that passes the validation of [TOFFOLI] exactly one
    of the three ordering tests on the sorted controls holds, so the path on
    which [operator] is never bound is not taken and a matrix is returned. *)
Theorem TOFFOLI_branches_exhaustive (c1 c2 t n : Z) :
  c1 <> t -> c2 <> t ->
  (0 <= c1 <= n - 1)%Z -> (0 <= c2 <= n - 1)%Z -> (0 <= t <= n - 1)%Z ->
  let lo := fst (sorted2 c1 c2) in
  let hi := snd (sorted2 c1 c2) in
  (((hi < t)%Z /\ ~ (lo < t < hi)%Z /\ ~ (t < lo)%Z)
   \/ (~ (hi < t)%Z /\ (lo < t < hi)%Z /\ ~ (t < lo)%Z)
   \/ (~ (hi < t)%Z /\ ~ (lo < t < hi)%Z /\ (t < lo)%Z))
  /\ (exists m, TOFFOLI (C:=C) c1 c2 t n = OK (Arr2 m))
  /\ (forall msg, TOFFOLI (C:=C) c1 c2 t n <> Raise (UnboundLocalError msg)).
Proof.
  intros H1 H2 R1 R2 Rt lo hi. split; [|split].
  - subst lo hi. unfold sorted2. destruct (Z.leb_spec c1 c2); cbn [fst snd]; lia.
  - now apply TOFFOLI_returns.
  - intros msg E. destruct (@TOFFOLI_returns c1 c2 t n) as [m Hm]; try assumption.
    congruence.
Qed.

(** C2.  The operator returned by [TOFFOLI(0, 1, 2, 3)], applied to the basis
    vector of [|1,1,0>], gives the basis vector of [|1,1,1>]; applied to the
    basis vector of [|1,0,0>] it gives that vector back. *)
Theorem toffoli_on_basis_states :
  exists op : ndarray (C:=C),
    TOFFOLI 0 1 2 3 = OK op
    /\ (v <- basis_ket [true; true; false] ;; np_matmul op v)
       = basis_ket [true; true; true]
    /\ (v <- basis_ket [true; false; false] ;; np_matmul op v)
       = basis_ket [true; false; false]
    /\ basis_ket [true; true; true] = OK (Arr1 [0; 0; 0; 0; 0; 0; 0; 1]%C)
    /\ basis_ket [true; false; false] = OK (Arr1 [0; 0; 0; 0; 1; 0; 0; 0]%C).
Proof.
  eexists. split; [|split; [|split; [|split]]].
  - cbv - [c0 c1 cadd cmul csub copp cconj]. reflexivity.
  - cbv - [c0 c1 cadd cmul csub copp cconj]. do 2 f_equal. list_eq; ring.
  - cbv - [c0 c1 cadd cmul csub copp cconj]. do 2 f_equal. list_eq; ring.
  - cbv - [c0 c1 cadd cmul csub copp cconj]. do 2 f_equal. list_eq; ring.
  - cbv - [c0 c1 cadd cmul csub copp cconj]. do 2 f_equal. list_eq; ring.
Qed.

Context {S2 : InvSqrt2 C}.

(** C7.  [generate_ghz_state(3)] returns the vector of 8 amplitudes whose
    entries at index 0 and index 7 are the scalar [1/sqrt(2)] and whose other
    entries are 0. *)
Theorem generate_ghz_state_3 :
  generate_ghz_state 3
  = OK (Arr1 [inv_sqrt2; 0; 0; 0; 0; 0; 0; inv_sqrt2]%C).
Proof.
  cbv - [c0 c1 cadd cmul csub copp cconj inv_sqrt2].
  do 2 f_equal. list_eq; ring.
Qed.

(** * Further properties of the module *)

(** ** Scaling *)

Lemma mscale_mat (x : C) r c f :
  mscale x (mat r c f) = mat r c (fun i j => (x * f i j)%C).
Proof.
  unfold mscale, mat. rewrite map_map. apply map_ext. intros i. now rewrite map_map.
Qed.

Lemma is_mat_mscale (x : C) r c m : is_mat r c m -> is_mat r c (mscale x m).
Proof.
  intros Hm. rewrite (is_mat_tabulate Hm), mscale_mat. apply is_mat_mat.
Qed.

Lemma get_mscale (x : C) r c m i j :
  is_mat r c m -> i < r -> j < c -> get (mscale x m) i j = (x * get m i j)%C.
Proof.
  intros Hm Hi Hj. rewrite (is_mat_tabulate Hm) at 1.
  rewrite mscale_mat. now rewrite get_mat.
Qed.

Lemma mul2_mscale_r (x : C) r n c a b :
  0 < r -> 0 < n -> is_mat r n a -> is_mat n c b ->
  mul2 a (mscale x b) = mscale x (mul2 a b).
Proof.
  intros Hr Hn Ha Hb. assert (Hs := is_mat_mscale x Hb).
  assert (Hm := is_mat_mul2 Hn Ha Hb).
  apply is_mat_ext with (r := r) (c := c).
  - now apply is_mat_mul2 with (n := n).
  - now apply is_mat_mscale.
  - intros i j Hi Hj.
    rewrite (get_mscale x Hm) by assumption.
    rewrite !(get_mul2 (r := r) (n := n) (c := c)) by assumption.
    rewrite <- sum_to_scale_l. apply sum_to_ext. intros k Hk.
    rewrite (get_mscale x Hb) by assumption. ring.
Qed.

Lemma mul2_mscale_l (x : C) r n c a b :
  0 < r -> 0 < n -> is_mat r n a -> is_mat n c b ->
  mul2 (mscale x a) b = mscale x (mul2 a b).
Proof.
  intros Hr Hn Ha Hb. assert (Hs := is_mat_mscale x Ha).
  assert (Hm := is_mat_mul2 Hn Ha Hb).
  apply is_mat_ext with (r := r) (c := c).
  - now apply is_mat_mul2 with (n := n).
  - now apply is_mat_mscale.
  - intros i j Hi Hj.
    rewrite (get_mscale x Hm) by assumption.
    rewrite !(get_mul2 (r := r) (n := n) (c := c)) by assumption.
    rewrite <- sum_to_scale_l. apply sum_to_ext. intros k Hk.
    rewrite (get_mscale x Ha) by assumption. ring.
Qed.

Lemma kron2_mscale_l (x : C) ra ca rb cb a b :
  0 < ra -> 0 < rb -> is_mat ra ca a -> is_mat rb cb b ->
  kron2 (mscale x a) b = mscale x (kron2 a b).
Proof.
  intros Hra Hrb Ha Hb. assert (Hs := is_mat_mscale x Ha).
  assert (Hk := is_mat_kron2 Hra Hrb Ha Hb).
  apply is_mat_ext with (r := ra * rb) (c := ca * cb).
  - now apply is_mat_kron2.
  - now apply is_mat_mscale.
  - intros i j Hi Hj.
    destruct (divmod_lt _ _ Hi) as [Hi1 Hi2]. destruct (divmod_lt _ _ Hj) as [Hj1 Hj2].
    rewrite (get_mscale x Hk) by assumption.
    rewrite !(get_kron2 (ra := ra) (ca := ca) (rb := rb) (cb := cb)) by assumption.
    rewrite (get_mscale x Ha) by assumption. ring.
Qed.

Lemma kron2_mscale_r (x : C) ra ca rb cb a b :
  0 < ra -> 0 < rb -> is_mat ra ca a -> is_mat rb cb b ->
  kron2 a (mscale x b) = mscale x (kron2 a b).
Proof.
  intros Hra Hrb Ha Hb. assert (Hs := is_mat_mscale x Hb).
  assert (Hk := is_mat_kron2 Hra Hrb Ha Hb).
  apply is_mat_ext with (r := ra * rb) (c := ca * cb).
  - now apply is_mat_kron2.
  - now apply is_mat_mscale.
  - intros i j Hi Hj.
    destruct (divmod_lt _ _ Hi) as [Hi1 Hi2]. destruct (divmod_lt _ _ Hj) as [Hj1 Hj2].
    rewrite (get_mscale x Hk) by assumption.
    rewrite !(get_kron2 (ra := ra) (ca := ca) (rb := rb) (cb := cb)) by assumption.
    rewrite (get_mscale x Hb) by assumption. ring.
Qed.

(** ** Tensor products of columns *)

Lemma is_col_place n p a (v : nat -> matrix) :
  is_mat 2 1 a -> (forall k, k < n -> is_mat 2 1 (v k)) ->
  forall k, k < n -> is_mat 2 1 (place p a v k).
Proof. intros Ha Hv k Hk. unfold place. destruct (k =? p); auto. Qed.

Lemma col_place_madd n p a b (v : nat -> matrix) :
  p < n -> is_mat 2 1 a -> is_mat 2 1 b ->
  (forall k, k < n -> is_mat 2 1 (v k)) ->
  madd (tensor n (place p a v)) (tensor n (place p b v))
  = tensor n (place p (madd a b) v).
Proof.
  induction n as [|n IH]; intros Hp Ha Hb Hv; [lia|].
  cbn [tensor]. destruct (Nat.eq_dec p n) as [->|Hne].
  - rewrite !place_same.
    rewrite !(tensor_ext (place n _ v) v) by (intros; apply place_other; lia).
    symmetry.
    apply kron2_madd_r with (ra := 2 ^ n) (ca := 1) (rb := 2) (cb := 1);
      auto using pow2_pos, is_col_tensor.
  - rewrite !place_other by lia. rewrite <- IH by (auto; lia).
    symmetry.
    apply kron2_madd_l with (ra := 2 ^ n) (ca := 1) (rb := 2) (cb := 1);
      auto using pow2_pos; try (apply is_col_tensor, is_col_place; auto).
Qed.

Lemma col_place_mscale n p (x : C) a (v : nat -> matrix) :
  p < n -> is_mat 2 1 a -> (forall k, k < n -> is_mat 2 1 (v k)) ->
  tensor n (place p (mscale x a) v) = mscale x (tensor n (place p a v)).
Proof.
  induction n as [|n IH]; intros Hp Ha Hv; [lia|].
  cbn [tensor]. destruct (Nat.eq_dec p n) as [->|Hne].
  - rewrite !place_same.
    rewrite !(tensor_ext (place n _ v) v) by (intros; apply place_other; lia).
    apply kron2_mscale_r with (ra := 2 ^ n) (ca := 1) (rb := 2) (cb := 1);
      auto using pow2_pos, is_col_tensor.
  - rewrite !place_other by lia. rewrite IH by (auto; lia).
    apply kron2_mscale_l with (ra := 2 ^ n) (ca := 1) (rb := 2) (cb := 1);
      auto using pow2_pos; try (apply is_col_tensor, is_col_place; auto).
Qed.

Lemma is_mat_register n (q : nat -> bool) : is_mat (2 ^ n) 1 (register (C:=C) n q).
Proof. apply is_col_tensor. intros. apply is_mat_ket. Qed.

Lemma register_ext n (q q' : nat -> bool) :
  (forall k, k < n -> q k = q' k) -> register (C:=C) n q = register n q'.
Proof. intros E. apply tensor_ext. intros k Hk. now rewrite E. Qed.

(** ** 1-D arrays as columns *)

Lemma length_flat m : length (flat m) = length m.
Proof. unfold flat. apply length_map. Qed.

Lemma nth_flat m k : nth k (flat m) 0%C = get m k 0.
Proof.
  unfold flat, get.
  exact (map_nth (fun row : list C => nth 0 row 0%C) m [] k).
Qed.

Lemma flat_mat r f : flat (mat r 1 f) = map (fun i => f i 0) (seq 0 r).
Proof. unfold flat, mat. rewrite map_map. reflexivity. Qed.

Lemma flat_tabulate r m : is_mat r 1 m -> flat m = map (fun i => get m i 0) (seq 0 r).
Proof. intros Hm. rewrite (is_mat_tabulate Hm) at 1. apply flat_mat. Qed.

(** [np.kron] of two 1-D arrays is the Kronecker product of the columns. *)
Lemma np_kron_flat r r' m m' :
  0 < r -> 0 < r' -> is_mat r 1 m -> is_mat r' 1 m' ->
  np_kron (Arr1 (flat m)) (Arr1 (flat m')) = Arr1 (flat (kron2 m m')).
Proof.
  intros Hr Hr' Hm Hm'. unfold np_kron. cbn [ndim as2d Nat.max of2d].
  f_equal. unfold kron2 at 1. cbn [nrows ncols length hd].
  rewrite !length_flat, (proj1 Hm), (proj1 Hm').
  cbn [Nat.mul mat seq map hd]. rewrite Nat.add_0_r.
  rewrite (flat_tabulate (is_mat_kron2 Hr Hr' Hm Hm')).
  cbn [seq map hd].
  apply map_seq_ext. intros j Hj.
  destruct (divmod_lt _ _ (proj2 Hj)) as [Hj1 Hj2].
  rewrite (get_kron2 (ra := r) (ca := 1) (rb := r') (cb := 1)) by (assumption || lia).
  cbn [Nat.div Nat.modulo Nat.divmod fst snd Nat.sub get nth].
  now rewrite !nth_flat.
Qed.

(** [m @ v] on a 1-D array is the product with the column. *)
Lemma np_matmul_flat r n a m :
  0 < r -> 0 < n -> is_mat r n a -> is_mat n 1 m ->
  np_matmul (Arr2 a) (Arr1 (flat m)) = OK (Arr1 (flat (mul2 a m))).
Proof.
  intros Hr Hn Ha Hm. unfold np_matmul.
  rewrite length_flat, (is_mat_ncols Hr Ha), (proj1 Hm), Nat.eqb_refl.
  rewrite (is_mat_nrows Ha). do 2 f_equal.
  rewrite (flat_tabulate (is_mat_mul2 Hn Ha Hm)).
  apply map_seq_ext. intros i Hi.
  rewrite (get_mul2 (r := r) (n := n) (c := 1)) by (assumption || lia).
  apply sum_to_ext. intros k Hk. now rewrite nth_flat.
Qed.

(** ** Basis states as 1-D arrays *)

Lemma ket_array (x : bool) :
  (if x then one else zero) = Arr1 (flat (ket (C:=C) x)).
Proof. now destruct x. Qed.

Lemma register_of_snoc (bits : list bool) (x : bool) :
  register_of (C:=C) (bits ++ [x]) = kron2 (register_of bits) (ket x).
Proof.
  unfold register_of, register. rewrite length_app, Nat.add_comm. cbn [length Nat.add tensor].
  rewrite app_nth2, Nat.sub_diag by lia. cbn [nth]. f_equal.
  apply tensor_ext. intros k Hk. now rewrite app_nth1.
Qed.

Lemma fold_kets (rest pre : list bool) :
  pre <> [] ->
  fold_left np_kron (map (fun q : bool => if q then one else zero) rest)
            (Arr1 (flat (register_of (C:=C) pre)))
  = Arr1 (flat (register_of (pre ++ rest))).
Proof.
  revert pre. induction rest as [|x rest IH]; intros pre Hpre.
  - now rewrite app_nil_r.
  - cbn [map fold_left]. rewrite ket_array.
    rewrite (np_kron_flat (r := 2 ^ length pre) (r' := 2));
      try apply pow2_pos; try lia;
      try apply is_mat_register; try apply is_mat_ket.
    rewrite <- register_of_snoc.
    replace (pre ++ x :: rest) with ((pre ++ [x]) ++ rest) by now rewrite <- app_assoc.
    apply IH. now destruct pre.
Qed.

(** The basis vector of a non-empty list of qubit values is the register
    column, flattened. *)
Lemma basis_ket_register (bits : list bool) :
  bits <> [] -> basis_ket bits = OK (Arr1 (flat (register_of (C:=C) bits))).
Proof.
  intros Hb. destruct bits as [|x bits]; [contradiction|].
  unfold basis_ket. cbn [map kron]. f_equal.
  assert (E : (if x then one else zero) = Arr1 (flat (register_of (C:=C) [x]))).
  { rewrite ket_array. do 2 f_equal. unfold register_of, register. cbn [length tensor nth].
    symmetry. apply kron2_unit_l with (r := 2) (c := 1); [lia | apply is_mat_ket]. }
  rewrite E. now rewrite fold_kets by discriminate.
Qed.

Lemma length_set_bit (bits : list bool) t (x : bool) :
  length (set_bit bits t x) = length bits.
Proof. unfold set_bit. now rewrite length_map, length_seq. Qed.

Lemma nth_set_bit (bits : list bool) t (x : bool) k :
  k < length bits ->
  nth k (set_bit bits t x) false = if k =? t then x else nth k bits false.
Proof.
  intros Hk. unfold set_bit.
  now rewrite (nth_map_seq (fun k => if k =? t then x else nth k bits false)).
Qed.

Lemma register_of_set_bit (bits : list bool) t (x : bool) :
  register_of (C:=C) (set_bit bits t x)
  = register (length bits) (fun k => if k =? t then x else nth k bits false).
Proof.
  unfold register_of. rewrite length_set_bit.
  apply register_ext. intros k Hk. now apply nth_set_bit.
Qed.

(** ** [add_gate] *)

Lemma add_gate_run (gate : matrix) (t n : Z) :
  is_mat 2 2 gate -> (0 <= t <= n - 1)%Z ->
  add_gate (Arr2 gate) t n
  = OK (Arr2 (tensor (Z.to_nat n) (place (Z.to_nat t) gate idle))).
Proof.
  intros Hg Ht. unfold add_gate, py_repeat.
  replace (Z.to_nat (n - (t + 1))) with (Z.to_nat n - Z.to_nat t - 1) by lia.
  apply kron_pad1; [lia | assumption].
Qed.

Lemma np_matmul_2d r n c a b :
  0 < r -> is_mat r n a -> is_mat n c b ->
  np_matmul (Arr2 a) (Arr2 b) = OK (Arr2 (mul2 a b)).
Proof.
  intros Hr Ha Hb. unfold np_matmul.
  now rewrite (is_mat_ncols Hr Ha), (is_mat_nrows Hb), Nat.eqb_refl.
Qed.

Lemma mul2_eye2_l a : is_mat 2 2 a -> mul2 (eye 2) a = a.
Proof.
  intros Ha. destruct (is_mat22_inv Ha) as [x [y [z [w ->]]]].
  mcompute. list_eq; ring.
Qed.

Lemma mul2_eye2_r a : is_mat 2 2 a -> mul2 a (eye 2) = a.
Proof.
  intros Ha. destruct (is_mat22_inv Ha) as [x [y [z [w ->]]]].
  mcompute. list_eq; ring.
Qed.

Lemma shape_square k m : is_mat (2 ^ k) (2 ^ k) m -> shape (Arr2 m) = [2 ^ k; 2 ^ k].
Proof.
  intros Hm. cbn [shape].
  now rewrite (is_mat_nrows Hm), (is_mat_ncols (pow2_pos _) Hm).
Qed.

(** X1.  For a 2 x 2 gate and a target inside the register, [add_gate]
    returns a [2^n] x [2^n] operator that, on every basis state, applies the
    gate to the target qubit and leaves the other qubits alone. *)
Theorem add_gate_acts_on_target (gate : matrix) (t n : Z) :
  is_mat 2 2 gate -> (0 <= t <= n - 1)%Z ->
  exists op,
    add_gate (Arr2 gate) t n = OK (Arr2 op)
    /\ shape (Arr2 op) = [2 ^ Z.to_nat n; 2 ^ Z.to_nat n]
    /\ (forall q : nat -> bool,
          mul2 op (register (Z.to_nat n) q)
          = tensor (Z.to_nat n)
              (fun k => if k =? Z.to_nat t then mul2 gate (ket (q k))
                        else ket (q k))).
Proof.
  intros Hg Ht. rewrite add_gate_run by assumption.
  eexists. split; [reflexivity|]. split.
  - apply shape_square. shapes.
  - intros q. unfold register.
    rewrite tensor_apply by (shapes; try apply is_mat_ket).
    apply tensor_ext. intros k Hk. unfold place, idle.
    destruct (k =? Z.to_nat t); [reflexivity | apply eye2_ket].
Qed.

(** X2.  Embedding the identity gives the identity of the whole register. *)
Theorem add_gate_identity (t n : Z) :
  (0 <= t <= n - 1)%Z ->
  add_gate I t n = OK (np_eye (2 ^ Z.to_nat n)).
Proof.
  intros Ht. change (@I C SC) with (Arr2 (eye (C:=C) 2)).
  rewrite add_gate_run by (auto using is_mat_eye).
  change (np_eye (2 ^ Z.to_nat n)) with (Arr2 (eye (C:=C) (2 ^ Z.to_nat n))).
  do 2 f_equal. rewrite <- tensor_idle.
  apply tensor_ext. intros k _. unfold place, idle. now destruct (k =? Z.to_nat t).
Qed.

(** X3.  Embedding is multiplicative: the product of two embeddings at one
    target is the embedding of the product of the gates. *)
Theorem add_gate_product (g1 g2 : matrix) (t n : Z) :
  is_mat 2 2 g1 -> is_mat 2 2 g2 -> (0 <= t <= n - 1)%Z ->
  (op1 <- add_gate (Arr2 g1) t n ;; op2 <- add_gate (Arr2 g2) t n ;;
   np_matmul op1 op2)
  = (g <- np_matmul (Arr2 g1) (Arr2 g2) ;; add_gate g t n).
Proof.
  intros H1 H2 Ht.
  rewrite (np_matmul_2d (r := 2) (n := 2) (c := 2)) by (assumption || lia).
  cbn [bind].
  rewrite !add_gate_run by (assumption || (apply is_mat_mul2 with (n := 2); auto; lia)).
  cbn [bind].
  rewrite (np_matmul_2d (r := 2 ^ Z.to_nat n) (n := 2 ^ Z.to_nat n) (c := 2 ^ Z.to_nat n))
    by shapes.
  do 2 f_equal. rewrite tensor_mul2 by shapes.
  apply tensor_ext. intros k _. unfold place, idle.
  destruct (k =? Z.to_nat t); [reflexivity | apply eye2_mul].
Qed.

(** X4.  Embeddings at two different targets commute. *)
Theorem add_gate_commute (g1 g2 : matrix) (s t n : Z) :
  is_mat 2 2 g1 -> is_mat 2 2 g2 ->
  (0 <= s <= n - 1)%Z -> (0 <= t <= n - 1)%Z -> s <> t ->
  (op1 <- add_gate (Arr2 g1) s n ;; op2 <- add_gate (Arr2 g2) t n ;;
   np_matmul op1 op2)
  = (op2 <- add_gate (Arr2 g2) t n ;; op1 <- add_gate (Arr2 g1) s n ;;
     np_matmul op2 op1).
Proof.
  intros H1 H2 Hs Ht Hne.
  rewrite !add_gate_run by assumption. cbn [bind].
  rewrite !(np_matmul_2d (r := 2 ^ Z.to_nat n) (n := 2 ^ Z.to_nat n)
                         (c := 2 ^ Z.to_nat n)) by shapes.
  do 2 f_equal. rewrite !tensor_mul2 by shapes.
  apply tensor_ext. intros k _. unfold place, idle.
  destruct (Nat.eqb_spec k (Z.to_nat s)), (Nat.eqb_spec k (Z.to_nat t)); try lia.
  - now rewrite mul2_eye2_l, mul2_eye2_r.
  - now rewrite mul2_eye2_l, mul2_eye2_r.
  - reflexivity.
Qed.

(** X5.  The embedding of a unitary gate is unitary. *)
Theorem add_gate_unitary (gate : matrix) (t n : Z) :
  is_mat 2 2 gate -> unitary gate -> (0 <= t <= n - 1)%Z ->
  exists op, add_gate (Arr2 gate) t n = OK (Arr2 op)
             /\ mul2 op (dagger op) = eye (2 ^ Z.to_nat n).
Proof.
  intros Hg Hu Ht. rewrite add_gate_run by assumption.
  eexists. split; [reflexivity|].
  unfold unitary in Hu. rewrite (is_mat_nrows Hg) in Hu.
  rewrite tensor_dagger by shapes.
  rewrite tensor_mul2 by (shapes2; shapes).
  rewrite <- tensor_idle. apply tensor_ext. intros k _. unfold place, idle.
  destruct (k =? Z.to_nat t); [assumption|].
  now rewrite eye2_dagger, eye2_mul.
Qed.

(** X6.  [add_gate] checks nothing: for a 2 x 2 gate it returns for every
    target and register size, with one factor per padding entry, so a target
    at or past the end of the register (or a negative one) gives an operator
    on more than [num_qubits] qubits. *)
Theorem add_gate_unchecked (gate : matrix) (t n : Z) :
  is_mat 2 2 gate ->
  let k := Z.to_nat t + 1 + Z.to_nat (n - (t + 1)) in
  exists op, add_gate (Arr2 gate) t n = OK (Arr2 op)
             /\ shape (Arr2 op) = [2 ^ k; 2 ^ k]
             /\ ((n <= t)%Z \/ (t < 0)%Z -> Z.to_nat n < k).
Proof.
  intros Hg k. unfold add_gate.
  destruct (@kron_gates (py_repeat I t ++ [Arr2 gate] ++ py_repeat I (n - (t + 1))))
    as [op [E Hop]].
  - now destruct (py_repeat I t).
  - unfold py_repeat. apply Forall_app. split; [apply Forall_repeat, gate22_I|].
    constructor; [now exists gate | apply Forall_repeat, gate22_I].
  - assert (El : length (py_repeat (@I C SC) t ++ [Arr2 gate]
                              ++ py_repeat I (n - (t + 1))) = k).
    { unfold py_repeat. rewrite !length_app, !repeat_length. cbn [length]. subst k. lia. }
    rewrite El in Hop.
    exists op. split; [exact E|]. split; [now apply shape_square|].
    subst k. lia.
Qed.

(** ** [control_gate] and the CNOT constructors *)

Lemma control_gate_run2 (gate : matrix) (c t n : Z) :
  is_mat 2 2 gate -> (0 <= c <= n - 1)%Z -> (0 <= t <= n - 1)%Z -> c <> t ->
  control_gate (Arr2 gate) c t n
  = OK (Arr2 (madd (two_slots (Z.to_nat n) (Z.to_nat c) (Z.to_nat t) projector0 (eye 2))
                   (two_slots (Z.to_nat n) (Z.to_nat c) (Z.to_nat t) projector1 gate))).
Proof.
  intros Hg Hc Ht Hne. rewrite control_gate_run by (assumption || lia).
  replace (Nat.max (Z.to_nat n) (Z.to_nat c + 1)) with (Z.to_nat n) by lia.
  do 3 f_equal. unfold two_slots.
  apply tensor_ext. intros k _. unfold place, idle. eqb_cases; reflexivity.
Qed.

(** X7.  The controlled gate is assembled from three single-qubit embeddings:
    the off-projector at the control, plus the on-projector at the control
    times the gate at the target. *)
Theorem control_gate_from_add_gate (gate : matrix) (c t n : Z) :
  is_mat 2 2 gate -> (0 <= c <= n - 1)%Z -> (0 <= t <= n - 1)%Z -> c <> t ->
  control_gate (Arr2 gate) c t n
  = (off <- add_gate (np_outer zero zero) c n ;;
     on <- add_gate (np_outer one one) c n ;;
     g <- add_gate (Arr2 gate) t n ;;
     on_g <- np_matmul on g ;;
     np_add off on_g).
Proof.
  intros Hg Hc Ht Hne. rewrite control_gate_run by (assumption || lia).
  replace (Nat.max (Z.to_nat n) (Z.to_nat c + 1)) with (Z.to_nat n) by lia.
  rewrite outer_zero, outer_one.
  rewrite !add_gate_run by (assumption || shapes2). cbn [bind].
  rewrite (np_matmul_2d (r := 2 ^ Z.to_nat n) (n := 2 ^ Z.to_nat n)
                        (c := 2 ^ Z.to_nat n)) by shapes2.
  cbn [bind].
  rewrite (np_add_same (r := 2 ^ Z.to_nat n) (c := 2 ^ Z.to_nat n)) by shapes2.
  do 3 f_equal. rewrite tensor_mul2 by shapes2.
  apply tensor_ext. intros k _. unfold place, idle.
  destruct (Nat.eqb_spec k (Z.to_nat c)), (Nat.eqb_spec k (Z.to_nat t)); try lia.
  - now rewrite mul2_eye2_r by shapes2.
  - now rewrite mul2_eye2_l.
  - now rewrite eye2_mul.
Qed.

Lemma two_slots_product n p q (g1 g2 : matrix) :
  p < n -> is_mat 2 2 g1 -> is_mat 2 2 g2 ->
  mul2 (madd (two_slots n p q projector0 (eye 2)) (two_slots n p q projector1 g1))
       (madd (two_slots n p q projector0 (eye 2)) (two_slots n p q projector1 g2))
  = madd (two_slots n p q projector0 (eye 2))
         (two_slots n p q projector1 (mul2 g1 g2)).
Proof.
  intros Hp H1 H2.
  rewrite (mul2_madd_l (r := 2 ^ n) (n := 2 ^ n) (c := 2 ^ n)) by shapes3.
  rewrite !(mul2_madd_r (r := 2 ^ n) (n := 2 ^ n) (c := 2 ^ n)) by shapes3.
  rewrite !two_slots_mul by shapes3.
  rewrite proj00, proj01, proj10, proj11, eye2_mul.
  rewrite !two_slots_zero by shapes3.
  rewrite (madd_zeros_r (r := 2 ^ n) (c := 2 ^ n)) by shapes3.
  rewrite (madd_zeros_l (r := 2 ^ n) (c := 2 ^ n)) by shapes3.
  reflexivity.
Qed.

(** X8.  Controlling is multiplicative in the gate: the product of two
    controlled gates on one control/target pair is the controlled product. *)
Theorem control_gate_product (g1 g2 : matrix) (c t n : Z) :
  is_mat 2 2 g1 -> is_mat 2 2 g2 ->
  (0 <= c <= n - 1)%Z -> (0 <= t <= n - 1)%Z -> c <> t ->
  (op1 <- control_gate (Arr2 g1) c t n ;; op2 <- control_gate (Arr2 g2) c t n ;;
   np_matmul op1 op2)
  = (g <- np_matmul (Arr2 g1) (Arr2 g2) ;; control_gate g c t n).
Proof.
  intros H1 H2 Hc Ht Hne.
  rewrite (np_matmul_2d (r := 2) (n := 2) (c := 2)) by (assumption || lia).
  cbn [bind].
  rewrite !control_gate_run2 by (assumption || shapes2). cbn [bind].
  rewrite (np_matmul_2d (r := 2 ^ Z.to_nat n) (n := 2 ^ Z.to_nat n)
                        (c := 2 ^ Z.to_nat n)) by shapes3.
  do 2 f_equal. apply two_slots_product; (assumption || lia).
Qed.

(** X9.  [cnot_nonadj] is [control_gate] at the gate [X], on every input,
    failing ones included. *)
Theorem cnot_nonadj_is_control_gate_X (c t n : Z) :
  cnot_nonadj (C:=C) c t n = control_gate X c t n.
Proof. apply cnot_nonadj_control_gate. Qed.

Lemma pauli_x_ket (x : bool) : mul2 pauli_x (ket x) = ket (C:=C) (negb x).
Proof. destruct x; cbn [negb]; cbv [ket]; mcompute; list_eq; ring. Qed.

Lemma cnot_action n c t (bits : list bool) :
  length bits = n -> c < n -> t < n -> c <> t ->
  mul2 (madd (tensor n (place c projector0 idle))
             (tensor n (place c projector1 (place t pauli_x idle))))
       (register_of bits)
  = register_of (C:=C)
      (set_bit bits t (xorb (nth t bits false) (nth c bits false))).
Proof.
  intros Hl Hc Ht Hne. rewrite register_of_set_bit. unfold register_of.
  rewrite Hl. rewrite projector_sum_action by (assumption || shapes2).
  apply tensor_ext. intros k Hk.
  destruct (Nat.eqb_spec k t) as [->|Hkt]; cbn [andb]; [|reflexivity].
  destruct (nth c bits false).
  - rewrite pauli_x_ket. now rewrite xorb_true_r.
  - now rewrite xorb_false_r.
Qed.

(** X10.  On a basis state [cnot_nonadj] flips the target qubit when the
    control qubit is 1 and returns the state unchanged when it is 0, for
    control and target in either order and at any distance. *)
Theorem cnot_nonadj_flips_target (c t n : Z) (bits : list bool) :
  (0 <= c <= n - 1)%Z -> (0 <= t <= n - 1)%Z -> c <> t ->
  length bits = Z.to_nat n ->
  (op <- cnot_nonadj c t n ;; v <- basis_ket bits ;; np_matmul op v)
  = basis_ket (C:=C)
      (set_bit bits (Z.to_nat t)
         (xorb (nth (Z.to_nat t) bits false) (nth (Z.to_nat c) bits false))).
Proof.
  intros Hc Ht Hne Hl.
  assert (Hb : bits <> []) by (intros ->; cbn in Hl; lia).
  rewrite cnot_nonadj_control_gate.
  change (@X C SC) with (Arr2 (pauli_x (C:=C))).
  rewrite control_gate_run by (shapes2 || lia).
  replace (Nat.max (Z.to_nat n) (Z.to_nat c + 1)) with (Z.to_nat n) by lia.
  cbn [bind]. rewrite (basis_ket_register Hb). cbn [bind].
  rewrite (np_matmul_flat (r := 2 ^ Z.to_nat n) (n := 2 ^ Z.to_nat n));
    shapes2; try (unfold register_of; rewrite Hl; apply is_mat_register).
  rewrite basis_ket_register
    by (intros E; apply (f_equal (@length _)) in E;
        rewrite length_set_bit in E; cbn in E; lia).
  do 3 f_equal. apply cnot_action; (assumption || lia).
Qed.

(** X11.  On a basis state [cnot_adj] flips qubit [i + 1] when qubit [i] is
    1 and returns the state unchanged when it is 0. *)
Theorem cnot_adj_flips_target (i n : Z) (bits : list bool) :
  (0 <= i)%Z -> (i + 1 <= n - 1)%Z -> length bits = Z.to_nat n ->
  (op <- cnot_adj i (i + 1) n ;; v <- basis_ket bits ;; np_matmul op v)
  = basis_ket (C:=C)
      (set_bit bits (Z.to_nat (i + 1))
         (xorb (nth (Z.to_nat (i + 1)) bits false) (nth (Z.to_nat i) bits false))).
Proof.
  intros Hi Hn Hl.
  assert (Hb : bits <> []) by (intros ->; cbn in Hl; lia).
  rewrite cnot_adj_run by assumption.
  cbn [bind]. rewrite (basis_ket_register Hb). cbn [bind].
  rewrite (np_matmul_flat (r := 2 ^ Z.to_nat n) (n := 2 ^ Z.to_nat n));
    shapes2; try (unfold register_of; rewrite Hl; apply is_mat_register).
  rewrite basis_ket_register
    by (intros E; apply (f_equal (@length _)) in E;
        rewrite length_set_bit in E; cbn in E; lia).
  do 3 f_equal. apply cnot_action; (assumption || lia).
Qed.

(** X12.  Applying [cnot_adj] twice gives the identity of the register. *)
Theorem cnot_adj_involution (i n : Z) :
  (0 <= i)%Z -> (i + 1 <= n - 1)%Z ->
  (op <- cnot_adj (C:=C) i (i + 1) n ;; np_matmul op op)
  = OK (np_eye (2 ^ Z.to_nat n)).
Proof.
  intros Hi Hn. rewrite cnot_adj_run by assumption. cbn [bind].
  rewrite (np_matmul_2d (r := 2 ^ Z.to_nat n) (n := 2 ^ Z.to_nat n)
                        (c := 2 ^ Z.to_nat n)) by shapes2.
  change (np_eye (2 ^ Z.to_nat n)) with (Arr2 (eye (C:=C) (2 ^ Z.to_nat n))).
  do 2 f_equal.
  rewrite (tensor_ext (place (Z.to_nat i) projector0 idle)
             (place (Z.to_nat i) projector0 (place (Z.to_nat (i + 1)) (eye 2) idle)))
    by (intros ? _; unfold place, idle; eqb_cases; reflexivity).
  fold (two_slots (Z.to_nat n) (Z.to_nat i) (Z.to_nat (i + 1)) projector0 (eye (C:=C) 2)).
  fold (two_slots (Z.to_nat n) (Z.to_nat i) (Z.to_nat (i + 1)) projector1 (pauli_x (C:=C))).
  rewrite two_slots_product by (shapes2 || lia).
  rewrite X_involutive, two_slots_add by (shapes2 || lia).
  rewrite proj_complete. apply two_slots_eye.
Qed.

(** X13.  [cnot_adj] raises exactly when the target is not the qubit after
    the control; it checks no range, so an adjacent pair at or past the end
    of the register (or before its start) gives an operator on more than
    [num_qubits] qubits. *)
Theorem cnot_adj_adjacency_only (c t n : Z) :
  ((t <> c + 1)%Z ->
   exists e, cnot_adj (C:=C) c t n = Raise e /\ NotAdjacentError e)
  /\ ((t = c + 1)%Z ->
      let k := Z.to_nat c + 2 + Z.to_nat (n - (t + 1)) in
      exists op, cnot_adj (C:=C) c t n = OK (Arr2 op)
                 /\ shape (Arr2 op) = [2 ^ k; 2 ^ k]
                 /\ ((c < 0)%Z \/ (n <= t)%Z -> Z.to_nat n < k)).
Proof.
  split.
  - intros Hne. unfold cnot_adj.
    destruct (Z.eqb_spec t (c + 1)) as [|_]; [contradiction|].
    eexists. split; reflexivity.
  - intros -> k. unfold cnot_adj. rewrite Z.eqb_refl. cbn [negb].
    unfold py_repeat. set (p := Z.to_nat c). set (e := Z.to_nat (n - (c + 1 + 1))).
    change cnot with (Arr2 (as2d (cnot (C:=C)))).
    rewrite (kron_prefix p (repeat I e) (r := 4) (c := 4)) by (lia || apply is_mat_cnot).
    change (@I C SC) with (Arr2 (eye (C:=C) 2)).
    rewrite <- map_repeat, fold_np_kron.
    eexists. split; [reflexivity|]. split.
    + apply shape_square.
      replace (2 ^ k) with (2 ^ p * 4 * 2 ^ length (repeat (eye (C:=C) 2) e)).
      * apply is_mat_fold_kron2.
        -- pose proof (pow2_pos p). lia.
        -- shapes2.
        -- apply Forall_repeat, is_mat_eye.
      * rewrite repeat_length. subst k. fold p. fold e.
        rewrite !Nat.pow_add_r. reflexivity.
    + subst k p e. lia.
Qed.

(** ** [TOFFOLI] *)

Lemma sorted2_comm (x y : Z) : sorted2 x y = sorted2 y x.
Proof.
  unfold sorted2. destruct (Z.leb_spec x y), (Z.leb_spec y x); try reflexivity; try lia.
  now replace y with x by lia.
Qed.

(** X14.  The two controls of [TOFFOLI] are interchangeable, on every input. *)
Theorem TOFFOLI_controls_symmetric (c1 c2 t n : Z) :
  TOFFOLI (C:=C) c1 c2 t n = TOFFOLI c2 c1 t n.
Proof.
  unfold TOFFOLI.
  rewrite (orb_comm (c1 =? t)%Z).
  replace (negb (in_range c1 n) || negb (in_range t n) || negb (in_range c2 n))
    with (negb (in_range c2 n) || negb (in_range t n) || negb (in_range c1 n))
    by (destruct (in_range c1 n), (in_range t n), (in_range c2 n); reflexivity).
  now rewrite (sorted2_comm c1 c2).
Qed.

(** X15.  [TOFFOLI] raises exactly when the target equals a control or one of
    the three indices is outside [0 .. num_qubits - 1]; the error is then a
    validation error.  Equal controls are not rejected. *)
Theorem TOFFOLI_validation (c1 c2 t n : Z) :
  (c1 = t \/ c2 = t
   \/ ~ (0 <= c1 <= n - 1)%Z \/ ~ (0 <= t <= n - 1)%Z \/ ~ (0 <= c2 <= n - 1)%Z ->
   exists e, TOFFOLI (C:=C) c1 c2 t n = Raise e /\ InvalidQubitError e)
  /\ ((exists e, TOFFOLI (C:=C) c1 c2 t n = Raise e) ->
      c1 = t \/ c2 = t
      \/ ~ (0 <= c1 <= n - 1)%Z \/ ~ (0 <= t <= n - 1)%Z \/ ~ (0 <= c2 <= n - 1)%Z).
Proof.
  split.
  - intros Hbad. unfold TOFFOLI.
    destruct ((c1 =? t)%Z || (c2 =? t)%Z) eqn:E1.
    + eexists. split; [reflexivity | now left].
    + assert (E2 : negb (in_range c1 n) || negb (in_range t n)
                   || negb (in_range c2 n) = true).
      { apply orb_false_iff in E1. destruct E1 as [Ea Eb].
        apply Z.eqb_neq in Ea. apply Z.eqb_neq in Eb. unfold in_range.
        destruct (Z.leb_spec 0 c1), (Z.leb_spec c1 (n - 1)), (Z.leb_spec 0 c2),
          (Z.leb_spec c2 (n - 1)), (Z.leb_spec 0 t), (Z.leb_spec t (n - 1));
          try reflexivity; exfalso; lia. }
      rewrite E2. eexists. split; [reflexivity | right; now right].
  - intros [e He].
    destruct (Z.eq_dec c1 t) as [|H1]; [now left|].
    destruct (Z.eq_dec c2 t) as [|H2]; [right; now left|].
    right. right.
    destruct (Z_le_dec 0 c1), (Z_le_dec c1 (n - 1)), (Z_le_dec 0 c2),
      (Z_le_dec c2 (n - 1)), (Z_le_dec 0 t), (Z_le_dec t (n - 1));
      try (left; lia); try (right; left; lia); try (right; right; lia).
    exfalso. destruct (@TOFFOLI_returns c1 c2 t n) as [m Hm]; try assumption; try lia.
    congruence.
Qed.

Ltac toffoli_branch_shape n :=
  match goal with
  | |- exists m, bind (kron ?l1) (fun _ => bind (kron ?l2) (fun _ =>
                   bind (kron ?l3) (fun _ => bind (kron ?l4) _))) = _ /\ _ =>
      let Hm := fresh "Hm" in
      destruct (@four_terms_ok l1 l2 l3 l4) as [m [-> Hm]];
      [ intros E; apply (f_equal (@length _)) in E;
        unfold py_repeat in E; rewrite !length_app in E; cbn [length] in E; lia
      | gate_list | gate_list | gate_list | gate_list
      | same_length | same_length | same_length
      | exists m; split; [reflexivity|];
        unfold py_repeat in Hm; rewrite !length_app, !repeat_length in Hm;
        cbn [length] in Hm;
        match type of Hm with
        | is_mat (2 ^ ?k) _ _ =>
            replace k with (Z.to_nat n + 1) in Hm by lia
        end;
        now apply shape_square ]
  end.

(** X16.  With the two controls equal (which the validation lets through)
    every term has one factor too many: the call returns an operator on
    [num_qubits + 1] qubits. *)
Theorem TOFFOLI_equal_controls (c t n : Z) :
  c <> t -> (0 <= c <= n - 1)%Z -> (0 <= t <= n - 1)%Z ->
  exists op, TOFFOLI (C:=C) c c t n = OK (Arr2 op)
             /\ shape (Arr2 op) = [2 ^ (Z.to_nat n + 1); 2 ^ (Z.to_nat n + 1)].
Proof.
  intros Hne Hc Ht. unfold TOFFOLI.
  destruct (@toffoli_checks_pass c c t n Hne Hne Hc Hc Ht) as [-> ->].
  unfold sorted2. rewrite Z.leb_refl.
  destruct (Z.ltb_spec c t); [toffoli_branch_shape n|].
  destruct (Z.ltb_spec t c); cbn [andb]; [toffoli_branch_shape n | lia].
Qed.

Lemma three_slots_apply n p q r a b d (x : nat -> bool) :
  is_mat 2 2 a -> is_mat 2 2 b -> is_mat 2 2 d ->
  mul2 (three_slots n p q r a b d) (register n x)
  = tensor n (fun k => mul2 (place p a (place q b (place r d idle)) k) (ket (x k))).
Proof.
  intros Ha Hb Hd. unfold three_slots, register.
  apply tensor_apply; shapes. apply is_mat_ket.
Qed.

Lemma is_col_slots n p q r a b d (x : nat -> bool) :
  is_mat 2 2 a -> is_mat 2 2 b -> is_mat 2 2 d ->
  forall k, k < n ->
    is_mat 2 1 (mul2 (place p a (place q b (place r d idle)) k) (ket (x k))).
Proof.
  intros Ha Hb Hd k Hk. apply is_mat_mul2 with (n := 2); [lia | shapes | apply is_mat_ket].
Qed.

Lemma term_dead_p n p q r a b d (x : nat -> bool) :
  p < n -> is_mat 2 2 a -> is_mat 2 2 b -> is_mat 2 2 d ->
  mul2 a (ket (x p)) = zeros 2 1 ->
  mul2 (three_slots n p q r a b d) (register n x) = zeros (2 ^ n) 1.
Proof.
  intros Hp Ha Hb Hd Hz. rewrite three_slots_apply by assumption.
  apply tensor_zero_col with (p := p); [assumption | now apply is_col_slots |].
  now rewrite place_same.
Qed.

Lemma term_dead_q n p q r a b d (x : nat -> bool) :
  q < n -> p <> q -> is_mat 2 2 a -> is_mat 2 2 b -> is_mat 2 2 d ->
  mul2 b (ket (x q)) = zeros 2 1 ->
  mul2 (three_slots n p q r a b d) (register n x) = zeros (2 ^ n) 1.
Proof.
  intros Hq Hpq Ha Hb Hd Hz. rewrite three_slots_apply by assumption.
  apply tensor_zero_col with (p := q); [assumption | now apply is_col_slots |].
  now rewrite place_other, place_same by lia.
Qed.

Lemma term_live n p q r a b d (x : nat -> bool) :
  p <> r -> q <> r -> is_mat 2 2 a -> is_mat 2 2 b -> is_mat 2 2 d ->
  mul2 a (ket (x p)) = ket (x p) -> mul2 b (ket (x q)) = ket (x q) ->
  mul2 (three_slots n p q r a b d) (register n x)
  = tensor n (fun k => if k =? r then mul2 d (ket (x k)) else ket (x k)).
Proof.
  intros Hpr Hqr Ha Hb Hd Ea Eb. rewrite three_slots_apply by assumption.
  apply tensor_ext. intros k Hk. unfold place, idle.
  destruct (Nat.eqb_spec k p) as [->|Hkp].
  - destruct (Nat.eqb_spec p r); [lia | assumption].
  - destruct (Nat.eqb_spec k q) as [->|Hkq].
    + destruct (Nat.eqb_spec q r); [lia | assumption].
    + destruct (Nat.eqb_spec k r); [reflexivity | apply eye2_ket].
Qed.

Lemma is_col_live n r d (x : nat -> bool) :
  is_mat 2 2 d ->
  is_mat (2 ^ n) 1 (tensor n (fun k => if k =? r then mul2 d (ket (x k)) else ket (x k))).
Proof.
  intros Hd. apply is_col_tensor. intros k Hk.
  destruct (k =? r); [apply is_mat_gate_ket; assumption | apply is_mat_ket].
Qed.

Ltac col_side :=
  first [ apply pow2_pos
        | apply is_mat_zeros
        | apply is_col_live; shapes2
        | apply is_mat_madd; [apply pow2_pos | col_side] ].

Lemma toffoli_action n p q r (bits : list bool) :
  length bits = n -> p < n -> q < n -> r < n -> p <> q -> p <> r -> q <> r ->
  let Q := three_slots (C:=C) n p q r in
  mul2 (madd (madd (madd (Q projector0 projector0 (eye 2))
                         (Q projector1 projector0 (eye 2)))
                   (Q projector0 projector1 (eye 2)))
             (Q projector1 projector1 pauli_x))
       (register_of bits)
  = register_of
      (set_bit bits r (xorb (nth r bits false)
                            (nth p bits false && nth q bits false))).
Proof.
  intros Hl Hp Hq Hr Hpq Hpr Hqr Q. subst Q.
  rewrite register_of_set_bit. unfold register_of. rewrite Hl.
  set (x := fun k => nth k bits false).
  change (nth r bits false) with (x r). change (nth p bits false) with (x p).
  change (nth q bits false) with (x q).
  rewrite !(mul2_madd_l (r := 2 ^ n) (n := 2 ^ n) (c := 1))
    by (shapes3; apply is_mat_register).
  assert (P0 := projector0_ket (x p)). assert (P1 := projector1_ket (x p)).
  assert (Q0 := projector0_ket (x q)). assert (Q1 := projector1_ket (x q)).
  destruct (x p) eqn:Ep, (x q) eqn:Eq.
  - rewrite (@term_dead_p n p q r projector0 projector0 (eye 2) x), 
      (@term_dead_q n p q r projector1 projector0 (eye 2) x),
      (@term_dead_p n p q r projector0 projector1 (eye 2) x),
      (@term_live n p q r projector1 projector1 pauli_x x);
      try rewrite Ep; try rewrite Eq; shapes2; try lia; try assumption.
    rewrite !(madd_zeros_l (r := 2 ^ n) (c := 1)) by col_side.
    apply tensor_ext. intros k Hk.
    destruct (Nat.eqb_spec k r) as [->|]; [|reflexivity].
    now rewrite pauli_x_ket, xorb_true_r.
  - rewrite (@term_dead_p n p q r projector0 projector0 (eye 2) x), 
      (@term_live n p q r projector1 projector0 (eye 2) x),
      (@term_dead_p n p q r projector0 projector1 (eye 2) x),
      (@term_dead_q n p q r projector1 projector1 pauli_x x);
      try rewrite Ep; try rewrite Eq; shapes2; try lia; try assumption.
    rewrite (madd_zeros_l (r := 2 ^ n) (c := 1)) by col_side.
    rewrite !(madd_zeros_r (r := 2 ^ n) (c := 1)) by col_side.
    apply tensor_ext. intros k Hk.
    destruct (Nat.eqb_spec k r) as [->|]; [|reflexivity].
    now rewrite eye2_ket, xorb_false_r.
  - rewrite (@term_dead_q n p q r projector0 projector0 (eye 2) x), 
      (@term_dead_p n p q r projector1 projector0 (eye 2) x),
      (@term_live n p q r projector0 projector1 (eye 2) x),
      (@term_dead_p n p q r projector1 projector1 pauli_x x);
      try rewrite Ep; try rewrite Eq; shapes2; try lia; try assumption.
    rewrite !(madd_zeros_l (r := 2 ^ n) (c := 1)) by col_side.
    rewrite !(madd_zeros_r (r := 2 ^ n) (c := 1)) by col_side.
    apply tensor_ext. intros k Hk.
    destruct (Nat.eqb_spec k r) as [->|]; [|reflexivity].
    now rewrite eye2_ket, xorb_false_r.
  - rewrite (@term_live n p q r projector0 projector0 (eye 2) x), 
      (@term_dead_p n p q r projector1 projector0 (eye 2) x),
      (@term_dead_q n p q r projector0 projector1 (eye 2) x),
      (@term_dead_p n p q r projector1 projector1 pauli_x x);
      try rewrite Ep; try rewrite Eq; shapes2; try lia; try assumption.
    rewrite !(madd_zeros_r (r := 2 ^ n) (c := 1)) by col_side.
    apply tensor_ext. intros k Hk.
    destruct (Nat.eqb_spec k r) as [->|]; [|reflexivity].
    now rewrite eye2_ket, xorb_false_r.
Qed.

(** X17.  On a basis state [TOFFOLI] flips the target qubit when both control
    qubits are 1 and returns the state unchanged otherwise, for every
    register size and every relative order of the three positions. *)
Theorem TOFFOLI_flips_target (c1 c2 t n : Z) (bits : list bool) :
  c1 <> c2 -> c1 <> t -> c2 <> t ->
  (0 <= c1 <= n - 1)%Z -> (0 <= c2 <= n - 1)%Z -> (0 <= t <= n - 1)%Z ->
  length bits = Z.to_nat n ->
  (op <- TOFFOLI c1 c2 t n ;; v <- basis_ket bits ;; np_matmul op v)
  = basis_ket (C:=C)
      (set_bit bits (Z.to_nat t)
         (xorb (nth (Z.to_nat t) bits false)
               (nth (Z.to_nat c1) bits false && nth (Z.to_nat c2) bits false))).
Proof.
  intros H12 H1 H2 R1 R2 Rt Hl.
  assert (Hb : bits <> []) by (intros ->; cbn in Hl; lia).
  rewrite TOFFOLI_run by assumption.
  cbn [bind]. rewrite (basis_ket_register Hb). cbn [bind].
  rewrite (np_matmul_flat (r := 2 ^ Z.to_nat n) (n := 2 ^ Z.to_nat n));
    shapes3; try (unfold register_of; rewrite Hl; apply is_mat_register).
  rewrite basis_ket_register
    by (intros E; apply (f_equal (@length _)) in E;
        rewrite length_set_bit in E; cbn in E; lia).
  do 3 f_equal. rewrite toffoli_action by (assumption || lia).
  do 3 f_equal.
  destruct (Z.le_ge_cases c1 c2).
  - replace (Z.min c1 c2) with c1 by lia. now replace (Z.max c1 c2) with c2 by lia.
  - replace (Z.min c1 c2) with c2 by lia. replace (Z.max c1 c2) with c1 by lia.
    apply andb_comm.
Qed.

Lemma toffoli_square_run n p q r :
  p < n -> q < n -> r < n -> p <> q -> p <> r -> q <> r ->
  let Q := three_slots (C:=C) n p q r in
  let op := madd (madd (madd (Q projector0 projector0 (eye 2))
                             (Q projector1 projector0 (eye 2)))
                       (Q projector0 projector1 (eye 2)))
                 (Q projector1 projector1 pauli_x) in
  mul2 op op = eye (2 ^ n).
Proof.
  intros Hp Hq Hr Hpq Hpr Hqr Q op. subst op Q.
  rewrite !(mul2_madd_l (r := 2 ^ n) (n := 2 ^ n) (c := 2 ^ n)) by shapes3.
  rewrite !(mul2_madd_r (r := 2 ^ n) (n := 2 ^ n) (c := 2 ^ n)) by shapes3.
  rewrite !three_slots_mul by shapes3.
  rewrite proj00, proj01, proj10, proj11, eye2_mul, X_involutive.
  rewrite !three_slots_zero_p by shapes3.
  rewrite !three_slots_zero_q by (try lia; shapes3).
  rewrite !(madd_zeros_r (r := 2 ^ n) (c := 2 ^ n)) by shapes3.
  rewrite !(madd_zeros_l (r := 2 ^ n) (c := 2 ^ n)) by shapes3.
  rewrite three_slots_add_p by shapes3.
  rewrite (madd_assoc (r := 2 ^ n) (c := 2 ^ n)) by shapes3.
  rewrite three_slots_add_p by shapes3.
  rewrite three_slots_add_q by (try lia; shapes3).
  rewrite proj_complete. apply three_slots_eye.
Qed.

(** X18.  Applying [TOFFOLI] twice gives the identity of the register. *)
Theorem TOFFOLI_involution (c1 c2 t n : Z) :
  c1 <> c2 -> c1 <> t -> c2 <> t ->
  (0 <= c1 <= n - 1)%Z -> (0 <= c2 <= n - 1)%Z -> (0 <= t <= n - 1)%Z ->
  (op <- TOFFOLI (C:=C) c1 c2 t n ;; np_matmul op op)
  = OK (np_eye (2 ^ Z.to_nat n)).
Proof.
  intros H12 H1 H2 R1 R2 Rt.
  rewrite TOFFOLI_run by assumption. cbn [bind].
  rewrite (np_matmul_2d (r := 2 ^ Z.to_nat n) (n := 2 ^ Z.to_nat n)
                        (c := 2 ^ Z.to_nat n)) by shapes3.
  change (np_eye (2 ^ Z.to_nat n)) with (Arr2 (eye (C:=C) (2 ^ Z.to_nat n))).
  do 2 f_equal. apply toffoli_square_run; lia.
Qed.

(** ** [generate_ghz_state] on a register of any size *)

Lemma is_mat_H : is_mat 2 2 (as2d H).
Proof. split; [reflexivity|]. repeat constructor. Qed.

Lemma H_ket0 :
  mul2 (as2d H) (ket false)
  = madd (mscale inv_sqrt2 (ket false)) (mscale inv_sqrt2 (ket true)).
Proof. cbv [H ket mscale]. mcompute. list_eq; ring. Qed.

Lemma is_mat_ghz_col j n : is_mat (2 ^ n) 1 (ghz_col j n).
Proof.
  unfold ghz_col. apply is_mat_madd; [apply pow2_pos|].
  apply is_mat_mscale, is_mat_register.
Qed.

Lemma kron_zeros (n : Z) :
  (1 <= n)%Z ->
  kron (py_repeat zero n)
  = OK (Arr1 (flat (register (C:=C) (Z.to_nat n) (fun _ => false)))).
Proof.
  intros Hn. unfold py_repeat.
  assert (E : repeat (zero (C:=C)) (Z.to_nat n)
              = map (fun q : bool => if q then one else zero) (repeat false (Z.to_nat n)))
    by now rewrite map_repeat.
  rewrite E. fold (basis_ket (C:=C) (repeat false (Z.to_nat n))).
  rewrite basis_ket_register.
  - do 3 f_equal. unfold register_of. rewrite repeat_length.
    apply register_ext. intros k Hk. apply nth_repeat.
  - intros E'. apply (f_equal (@length _)) in E'. rewrite repeat_length in E'.
    cbn in E'. lia.
Qed.

Lemma hadamard_step n :
  0 < n ->
  mul2 (tensor n (place 0 (as2d H) idle)) (register n (fun _ => false))
  = ghz_col 1 n.
Proof.
  intros Hn. unfold register, ghz_col.
  rewrite tensor_apply by (shapes; try apply is_mat_H; try apply is_mat_ket).
  rewrite (tensor_ext _ (place 0 (mul2 (as2d H) (ket false)) (fun _ => ket false))).
  - rewrite H_ket0.
    rewrite <- col_place_madd
      by (try lia; try apply is_mat_mscale; intros; apply is_mat_ket).
    rewrite !col_place_mscale by (try lia; intros; apply is_mat_ket).
    f_equal; f_equal; apply tensor_ext; intros k Hk; unfold place.
    + now destruct (k =? 0).
    + destruct (Nat.eqb_spec k 0) as [->|]; [reflexivity|].
      destruct (Nat.ltb_spec k 1); [lia | reflexivity].
  - intros k Hk. unfold place, idle.
    destruct (k =? 0); [reflexivity | apply eye2_ket].
Qed.

Lemma cnot_step i n :
  i + 1 < n ->
  mul2 (madd (tensor n (place i projector0 idle))
             (tensor n (place i projector1 (place (i + 1) pauli_x idle))))
       (ghz_col (i + 1) n)
  = ghz_col (i + 2) n.
Proof.
  intros Hi. unfold ghz_col.
  assert (Hop : is_mat (2 ^ n) (2 ^ n)
                  (madd (tensor n (place i projector0 idle))
                        (tensor n (place i projector1 (place (i + 1) pauli_x idle)))))
    by shapes2.
  rewrite (mul2_madd_r (r := 2 ^ n) (n := 2 ^ n) (c := 1));
    try apply pow2_pos; try assumption;
    try (apply is_mat_mscale, is_mat_register).
  rewrite !(@mul2_mscale_r inv_sqrt2 (2 ^ n) (2 ^ n) 1);
    try apply pow2_pos; try assumption; try apply is_mat_register.
  rewrite !projector_sum_action by (try lia; shapes2).
  f_equal; f_equal; apply tensor_ext; intros k Hk.
  - now rewrite andb_false_r.
  - destruct (Nat.ltb_spec i (i + 1)); [|lia]. rewrite andb_true_r.
    destruct (Nat.eqb_spec k (i + 1)) as [->|Hk'].
    + rewrite pauli_x_ket.
      destruct (Nat.ltb_spec (i + 1) (i + 1)); [lia|].
      destruct (Nat.ltb_spec (i + 1) (i + 2)); [reflexivity | lia].
    + destruct (Nat.ltb_spec k (i + 1)), (Nat.ltb_spec k (i + 2)); try reflexivity; lia.
Qed.

Lemma ghz_loop_run (n : Z) (m i : nat) :
  i + m + 1 <= Z.to_nat n ->
  ghz_loop n (map Z.of_nat (seq i m)) (Arr1 (flat (ghz_col (i + 1) (Z.to_nat n))))
  = OK (Arr1 (flat (ghz_col (i + m + 1) (Z.to_nat n)))).
Proof.
  revert i. induction m as [|m IH]; intros i Hi.
  - cbn [seq map ghz_loop]. now rewrite Nat.add_0_r.
  - cbn [seq map ghz_loop].
    rewrite cnot_adj_run by lia. cbn [bind].
    rewrite (np_matmul_flat (r := 2 ^ Z.to_nat n) (n := 2 ^ Z.to_nat n));
      shapes2; try apply is_mat_ghz_col.
    cbn [bind].
    replace (Z.to_nat (Z.of_nat i + 1)) with (i + 1) by lia.
    rewrite Nat2Z.id. rewrite cnot_step by lia.
    replace (i + 2) with (S i + 1) by lia.
    rewrite IH by lia. now replace (S i + m + 1) with (i + S m + 1) by lia.
Qed.

Lemma get_register_const (x : bool) n i :
  i < 2 ^ n ->
  get (register (C:=C) n (fun _ => x)) i 0
  = if i =? (if x then 2 ^ n - 1 else 0) then 1%C else 0%C.
Proof.
  revert i. induction n as [|n IH]; intros i Hi.
  - cbn in Hi. replace i with 0 by lia. now destruct x.
  - unfold register in *. cbn [tensor].
    rewrite Nat.pow_succ_r' in Hi.
    assert (Hq : i / 2 < 2 ^ n) by (apply Nat.Div0.div_lt_upper_bound; lia).
    assert (Hr : i mod 2 < 2) by (apply Nat.mod_upper_bound; lia).
    rewrite (get_kron2 (ra := 2 ^ n) (ca := 1) (rb := 2) (cb := 1));
      try apply pow2_pos; try lia;
      try (apply is_col_tensor; intros; apply is_mat_ket); try apply is_mat_ket.
    rewrite Nat.div_1_r, Nat.mod_1_r.
    rewrite IH by assumption.
    pose proof (Nat.div_mod_eq i 2) as Ei. pose proof (pow2_pos n) as Hpos.
    rewrite Nat.pow_succ_r'.
    destruct x.
    + destruct (Nat.eqb_spec (i / 2) (2 ^ n - 1)), (Nat.eqb_spec i (2 * 2 ^ n - 1));
        destruct (i mod 2) as [|[|?]] eqn:Em; try lia; cbn [ket get nth]; ring.
    + destruct (Nat.eqb_spec (i / 2) 0), (Nat.eqb_spec i 0);
        destruct (i mod 2) as [|[|?]] eqn:Em; try lia; cbn [ket get nth]; ring.
Qed.

Lemma ghz_col_final n :
  0 < n -> flat (ghz_col n n) = ghz_vector n.
Proof.
  intros Hn. rewrite (flat_tabulate (is_mat_ghz_col n n)).
  unfold ghz_vector. apply map_seq_ext. intros i Hi. unfold ghz_col.
  rewrite (get_madd (r := 2 ^ n) (c := 1));
    try apply pow2_pos; try lia; try (apply is_mat_mscale, is_mat_register).
  rewrite !(get_mscale inv_sqrt2 (is_mat_register n _)) by lia.
  rewrite (@register_ext n (fun k => k <? n) (fun _ => true))
    by (intros k Hk; now apply Nat.ltb_lt).
  rewrite !get_register_const by lia.
  assert (2 <= 2 ^ n).
  { destruct n; [lia|]. rewrite Nat.pow_succ_r'. pose proof (pow2_pos n). lia. }
  destruct (Nat.eqb_spec i 0), (Nat.eqb_spec i (2 ^ n - 1)); cbn [orb]; try lia; ring.
Qed.

(** X19.  For every register size [n >= 1], [generate_ghz_state(n)] returns
    the vector of [2^n] amplitudes with [1/sqrt(2)] at index 0 and at index
    [2^n - 1] and 0 elsewhere (for [n = 1] this is the Hadamard state). *)
Theorem generate_ghz_state_any_size (n : Z) :
  (1 <= n)%Z ->
  generate_ghz_state n = OK (Arr1 (ghz_vector (Z.to_nat n))).
Proof.
  intros Hn. unfold generate_ghz_state.
  rewrite kron_zeros by assumption. cbn [bind].
  change H with (Arr2 (as2d H)).
  rewrite add_gate_run by (apply is_mat_H || lia). cbn [bind].
  rewrite (np_matmul_flat (r := 2 ^ Z.to_nat n) (n := 2 ^ Z.to_nat n));
    shapes; try apply is_mat_H; try apply is_mat_register.
  cbn [bind]. change (Z.to_nat 0) with 0.
  rewrite hadamard_step by lia.
  unfold py_range.
  change (ghz_col 1 (Z.to_nat n)) with (ghz_col (0 + 1) (Z.to_nat n)).
  rewrite (ghz_loop_run n (Z.to_nat (n - 1)) 0) by lia.
  replace (0 + Z.to_nat (n - 1) + 1) with (Z.to_nat n) by lia.
  now rewrite ghz_col_final by lia.
Qed.

(** X20.  On an empty register ([num_qubits <= 0]) [generate_ghz_state]
    fails in its first line: [kron] indexes an empty list. *)
Theorem generate_ghz_state_empty_register (n : Z) :
  (n <= 0)%Z ->
  generate_ghz_state n = Raise (IndexError "list index out of range"%string).
Proof.
  intros Hn. unfold generate_ghz_state, py_repeat.
  now replace (Z.to_nat n) with 0 by lia.
Qed.

(** ** Grouping in [kron] and [dot] *)







Lemma np_dot_2d r n c a b :
  0 < r -> is_mat r n a -> is_mat n c b ->
  np_dot (Arr2 a) (Arr2 b) = OK (Arr2 (mul2 a b)).
Proof.
  intros Hr Ha Hb. unfold np_dot.
  now rewrite (is_mat_ncols Hr Ha), (is_mat_nrows Hb), Nat.eqb_refl.
Qed.

Lemma is_mat_fold_mul2 d (l : list matrix) a :
  0 < d -> is_mat d d a -> Forall (is_mat d d) l -> is_mat d d (fold_left mul2 l a).
Proof.
  intros Hd. revert a. induction l as [|b l IH]; intros a Ha Hl; [assumption|].
  inversion Hl as [|? ? Hb Hl']; subst. cbn [fold_left].
  apply IH; [|assumption]. now apply is_mat_mul2 with (n := d).
Qed.

Lemma dot_loop_square d (l : list matrix) a :
  0 < d -> is_mat d d a -> Forall (is_mat d d) l ->
  dot_loop (Arr2 a) (map Arr2 l) = OK (Arr2 (fold_left mul2 l a)).
Proof.
  intros Hd. revert a. induction l as [|b l IH]; intros a Ha Hl; [reflexivity|].
  inversion Hl as [|? ? Hb Hl']; subst. cbn [map dot_loop fold_left].
  rewrite (np_dot_2d Hd Ha Hb). cbn [bind].
  apply IH; [|assumption]. now apply is_mat_mul2 with (n := d).
Qed.


(** X22.  On a non-empty list of [d] x [d] matrices [dot] raises nothing and
    returns a [d] x [d] matrix; on the empty list it raises [IndexError]. *)
Theorem dot_square_closed (d : nat) (ms : list (matrix (C:=C))) :
  0 < d -> Forall (is_mat d d) ms ->
  match ms with
  | [] => dot (map Arr2 ms) = Raise (IndexError "list index out of range"%string)
  | _ => exists m, dot (map Arr2 ms) = OK (Arr2 m) /\ shape (Arr2 m) = [d; d]
  end.
Proof.
  intros Hd Hms. destruct ms as [|a ms]; [reflexivity|].
  inversion Hms as [|? ? Ha Hms']; subst. cbn [map dot].
  rewrite (dot_loop_square Hd Ha Hms'). eexists. split; [reflexivity|].
  assert (Hm := is_mat_fold_mul2 Hd Ha Hms'). cbn [shape].
  now rewrite (is_mat_nrows Hm), (is_mat_ncols Hd Hm).
Qed.



(** ** The two-qubit constants [swap] and [CZ] *)

(** X25.  Conjugating with [swap] exchanges the two factors of a two-qubit
    product operator. *)
Theorem swap_exchanges_factors (a b : matrix (C:=C)) :
  is_mat 2 2 a -> is_mat 2 2 b ->
  (x <- kron [Arr2 a; Arr2 b] ;; dot [swap; x; swap]) = kron [Arr2 b; Arr2 a].
Proof.
  intros Ha Hb.
  destruct (is_mat22_inv Ha) as [a1 [a2 [a3 [a4 ->]]]].
  destruct (is_mat22_inv Hb) as [b1 [b2 [b3 [b4 ->]]]].
  cbv - [c0 c1 cadd cmul csub copp cconj].
  do 2 f_equal. list_eq; ring.
Qed.

Lemma place_mscale n p (x : C) a (h : nat -> matrix) :
  p < n -> is_mat 2 2 a -> (forall k, k < n -> is_mat 2 2 (h k)) ->
  tensor n (place p (mscale x a) h) = mscale x (tensor n (place p a h)).
Proof.
  induction n as [|n IH]; intros Hp Ha Hh; [lia|].
  cbn [tensor]. destruct (Nat.eq_dec p n) as [->|Hne].
  - rewrite !place_same.
    rewrite !(tensor_ext (place n _ h) h) by (intros; apply place_other; lia).
    apply kron2_mscale_r with (ra := 2 ^ n) (ca := 2 ^ n) (rb := 2) (cb := 2);
      shapes.
  - rewrite !place_other by lia. rewrite IH by (auto; lia).
    apply kron2_mscale_l with (ra := 2 ^ n) (ca := 2 ^ n) (rb := 2) (cb := 2);
      shapes.
Qed.

Lemma two_slots_swap n p q a b :
  p <> q -> two_slots n p q a b = two_slots n q p b a.
Proof.
  intros Hpq. unfold two_slots. apply tensor_ext. intros k _. now apply place_swap.
Qed.

Lemma two_slots_add_q n p q a b b' :
  q < n -> p <> q -> is_mat 2 2 a -> is_mat 2 2 b -> is_mat 2 2 b' ->
  madd (two_slots n p q a b) (two_slots n p q a b') = two_slots n p q a (madd b b').
Proof.
  intros Hq Hpq Ha Hb Hb'.
  rewrite !(@two_slots_swap n p q) by assumption.
  now apply two_slots_add.
Qed.

Lemma two_slots_mscale_q n p q (x : C) a b :
  q < n -> p <> q -> is_mat 2 2 a -> is_mat 2 2 b ->
  two_slots n p q a (mscale x b) = mscale x (two_slots n p q a b).
Proof.
  intros Hq Hpq Ha Hb.
  rewrite !(@two_slots_swap n p q) by assumption.
  unfold two_slots. apply place_mscale; shapes.
Qed.

Lemma two_slots_mscale_p n p q (x : C) a b :
  p < n -> is_mat 2 2 a -> is_mat 2 2 b ->
  two_slots n p q (mscale x a) b = mscale x (two_slots n p q a b).
Proof. intros Hp Ha Hb. unfold two_slots. apply place_mscale; shapes. Qed.

Lemma madd_interchange r c a b d e :
  0 < r -> is_mat r c a -> is_mat r c b -> is_mat r c d -> is_mat r c e ->
  madd (madd a b) (madd d e) = madd (madd a d) (madd b e).
Proof.
  intros Hr Ha Hb Hd He.
  assert (Hab := is_mat_madd b Hr Ha). assert (Had := is_mat_madd d Hr Ha).
  assert (Hde := is_mat_madd e Hr Hd). assert (Hbe := is_mat_madd e Hr Hb).
  apply is_mat_ext with (r := r) (c := c).
  - now apply is_mat_madd.
  - now apply is_mat_madd.
  - intros i j Hi Hj. rewrite !(get_madd (r := r) (c := c)) by assumption. ring.
Qed.

Lemma Z_decomposed :
  as2d Zgate = madd projector0 (mscale (- (1))%C projector1) :> matrix (C:=C).
Proof. cbv [Zgate mscale]. mcompute. list_eq; ring. Qed.

Lemma is_mat_Z : is_mat 2 2 (as2d (Zgate (C:=C))).
Proof. apply is_mat22. Qed.

(** X26.  The controlled-Z operator does not depend on which of the two
    qubits is called the control; on two qubits both choices give the
    constant [CZ]. *)
Theorem controlled_Z_symmetric :
  (forall c t n : Z,
      (0 <= c <= n - 1)%Z -> (0 <= t <= n - 1)%Z -> c <> t ->
      control_gate (C:=C) Zgate c t n = control_gate Zgate t c n)
  /\ control_gate (C:=C) Zgate 0 1 2 = OK CZ
  /\ control_gate (C:=C) Zgate 1 0 2 = OK CZ.
Proof.
  split; [|split].
  - intros c t n Hc Ht Hne.
    change (@Zgate C SC) with (Arr2 (as2d (Zgate (C:=C)))).
    rewrite !control_gate_run2 by (apply is_mat_Z || lia || congruence).
    do 2 f_equal.
    set (N := Z.to_nat n). set (p := Z.to_nat c). set (q := Z.to_nat t).
    assert (Hp : p < N) by lia. assert (Hq : q < N) by lia. assert (Hpq : p <> q) by lia.
    rewrite !(@two_slots_swap N q p) by lia.
    rewrite Z_decomposed, <- proj_complete.
    rewrite <- !two_slots_add_q
      by (try lia; shapes2; try (apply is_mat_mscale; shapes2)).
    rewrite <- !two_slots_add
      by (try lia; shapes2; try (apply is_mat_mscale; shapes2)).
    rewrite two_slots_mscale_q, two_slots_mscale_p by (shapes2; lia).
    apply madd_interchange with (r := 2 ^ N) (c := 2 ^ N);
      shapes3; apply is_mat_mscale; shapes3.
  - cbv - [c0 c1 cadd cmul csub copp cconj]. do 2 f_equal. list_eq; ring.
  - cbv - [c0 c1 cadd cmul csub copp cconj]. do 2 f_equal. list_eq; ring.
Qed.

(** X27.  A target equal to [num_qubits] passes the inclusive validation of
    [control_gate] and [cnot_nonadj], but the two terms then have different
    sizes and the backend's addition raises. *)
Theorem controlled_target_past_end (gate : matrix) (c n : Z) :
  is_mat 2 2 gate -> (0 <= c <= n - 1)%Z ->
  control_gate (Arr2 gate) c n n
  = Raise (ValueError "operands could not be broadcast together"%string)
  /\ cnot_nonadj (C:=C) c n n
     = Raise (ValueError "operands could not be broadcast together"%string).
Proof.
  intros Hgate Hc. split.
  - now apply control_gate_target_past_end.
  - rewrite cnot_nonadj_control_gate.
    change (@X C SC) with (Arr2 (pauli_x (C:=C))).
    apply control_gate_target_past_end; [apply is_mat_X | assumption].
Qed.

End Facts.

(** * The claims at concrete inputs, over the Gaussian integers *)

Lemma control_gate_projector_sum_witness :
  let op := madd (tensor 2 (place 1 projector0 idle))
                 (tensor 2 (place 1 projector1 (place 0 pauli_x idle))) in
  control_gate (C:=gauss) (Arr2 pauli_x) 1 0 2 = OK (Arr2 op)
  /\ shape (Arr2 op) = [4; 4]
  /\ (forall q : nat -> bool,
        mul2 op (register 2 q)
        = tensor 2 (fun k => if (k =? 0) && q 1
                             then mul2 pauli_x (ket (q k)) else ket (q k))).
Proof.
  apply (@control_gate_projector_sum gauss gauss_scalars pauli_x 1 0 2).
  - split; [reflexivity | repeat constructor].
  - lia.
  - lia.
  - lia.
  - discriminate.
Defined.

Lemma cnot_adj_agrees_with_cnot_nonadj_witness :
  cnot_adj (C:=gauss) 1 2 3 = cnot_nonadj 1 2 3
  /\ exists op, cnot_adj (C:=gauss) 1 2 3 = OK op /\ shape op = [8; 8].
Proof.
  apply (@cnot_adj_agrees_with_cnot_nonadj gauss gauss_scalars 1 3); lia.
Defined.

Lemma controlled_operators_unitary_witness :
  (exists op, control_gate (C:=gauss) (Arr2 pauli_x) 0 2 3 = OK (Arr2 op)
              /\ mul2 op (dagger op) = eye 8)
  /\ (exists op, TOFFOLI (C:=gauss) 2 0 1 3 = OK (Arr2 op)
                 /\ mul2 op (dagger op) = eye 8).
Proof.
  split.
  - apply (proj1 (@controlled_operators_unitary gauss gauss_scalars) pauli_x 0 2 3)%Z.
    + split; [reflexivity | repeat constructor].
    + reflexivity.
    + lia.
    + lia.
    + discriminate.
  - apply (proj2 (@controlled_operators_unitary gauss gauss_scalars) 2 0 1 3)%Z;
      (lia || discriminate).
Defined.

Lemma controlled_validation_witness :
  (exists e, control_gate (C:=gauss) X 2 2 5 = Raise e /\ InvalidQubitError e)
  /\ (exists e, cnot_nonadj (C:=gauss) 0 4 3 = Raise e /\ InvalidQubitError e).
Proof.
  split.
  - apply (proj1 (@controlled_validation gauss gauss_scalars) X 2 2 5)%Z.
    left. reflexivity.
  - apply (proj1 (proj2 (@controlled_validation gauss gauss_scalars)) 0 4 3)%Z.
    right. right. lia.
Defined.

Lemma TOFFOLI_branches_exhaustive_witness :
  (((1 < 0)%Z /\ ~ (1 < 0 < 1)%Z /\ ~ (0 < 1)%Z)
   \/ (~ (1 < 0)%Z /\ (1 < 0 < 1)%Z /\ ~ (0 < 1)%Z)
   \/ (~ (1 < 0)%Z /\ ~ (1 < 0 < 1)%Z /\ (0 < 1)%Z))
  /\ (exists m, TOFFOLI (C:=gauss) 1 1 0 2 = OK (Arr2 m))
  /\ (forall msg, TOFFOLI (C:=gauss) 1 1 0 2 <> Raise (UnboundLocalError msg)).
Proof.
  apply (@TOFFOLI_branches_exhaustive gauss gauss_scalars 1 1 0 2);
    (lia || discriminate).
Defined.

Lemma control_gate_identity_witness :
  control_gate (C:=gauss) I 0 1 2 = OK (np_eye 4).
Proof.
  apply (@control_gate_identity gauss gauss_scalars 0 1 2); (lia || discriminate).
Defined.

Lemma control_gate_control_past_end_witness :
  exists op,
    control_gate (C:=gauss) (Arr2 pauli_x) 2 0 2 = OK op
    /\ shape op = [8; 8] /\ shape op <> [4; 4].
Proof.
  apply (@control_gate_control_past_end gauss gauss_scalars pauli_x 0 2).
  - split; [reflexivity | repeat constructor].
  - lia.
  - lia.
Defined.

(** * The further properties at concrete inputs *)

Lemma gauss_is_mat22 (x y z w : gauss) : is_mat 2 2 [[x; y]; [z; w]].
Proof. split; [reflexivity | repeat constructor]. Defined.

Lemma add_gate_acts_on_target_witness :
  exists op,
    add_gate (C:=gauss) (Arr2 pauli_x) 1 2 = OK (Arr2 op)
    /\ shape (Arr2 op) = [4; 4]
    /\ (forall q : nat -> bool,
          mul2 op (register 2 q)
          = tensor 2 (fun k => if k =? 1 then mul2 pauli_x (ket (q k)) else ket (q k))).
Proof.
  apply (@add_gate_acts_on_target gauss gauss_scalars pauli_x 1%Z 2%Z).
  - apply gauss_is_mat22.
  - lia.
Defined.

Lemma add_gate_identity_witness :
  add_gate (C:=gauss) I 2 3 = OK (np_eye 8).
Proof. apply (@add_gate_identity gauss gauss_scalars 2%Z 3%Z). lia. Defined.

Lemma add_gate_product_witness :
  (op1 <- add_gate (C:=gauss) (Arr2 pauli_x) 0 2 ;;
   op2 <- add_gate (Arr2 projector1) 0 2 ;; np_matmul op1 op2)
  = (g <- np_matmul (Arr2 pauli_x) (Arr2 projector1) ;; add_gate g 0 2).
Proof.
  apply (@add_gate_product gauss gauss_scalars pauli_x projector1 0%Z 2%Z).
  - apply gauss_is_mat22.
  - apply gauss_is_mat22.
  - lia.
Defined.

Lemma add_gate_commute_witness :
  (op1 <- add_gate (C:=gauss) (Arr2 pauli_x) 0 2 ;;
   op2 <- add_gate (Arr2 projector1) 1 2 ;; np_matmul op1 op2)
  = (op2 <- add_gate (Arr2 projector1) 1 2 ;;
     op1 <- add_gate (Arr2 pauli_x) 0 2 ;; np_matmul op2 op1).
Proof.
  apply (@add_gate_commute gauss gauss_scalars pauli_x projector1 0%Z 1%Z 2%Z).
  - apply gauss_is_mat22.
  - apply gauss_is_mat22.
  - lia.
  - lia.
  - discriminate.
Defined.

Lemma add_gate_unitary_witness :
  exists op, add_gate (C:=gauss) (Arr2 pauli_x) 1 3 = OK (Arr2 op)
             /\ mul2 op (dagger op) = eye 8.
Proof.
  apply (@add_gate_unitary gauss gauss_scalars pauli_x 1%Z 3%Z).
  - apply gauss_is_mat22.
  - reflexivity.
  - lia.
Defined.

Lemma add_gate_unchecked_witness :
  exists op, add_gate (C:=gauss) (Arr2 pauli_x) 3 2 = OK (Arr2 op)
             /\ shape (Arr2 op) = [16; 16]
             /\ ((2 <= 3)%Z \/ (3 < 0)%Z -> 2 < 4).
Proof.
  apply (@add_gate_unchecked gauss gauss_scalars pauli_x 3%Z 2%Z).
  apply gauss_is_mat22.
Defined.

Lemma control_gate_from_add_gate_witness :
  control_gate (C:=gauss) (Arr2 pauli_x) 2 0 3
  = (off <- add_gate (np_outer zero zero) 2 3 ;;
     on <- add_gate (np_outer one one) 2 3 ;;
     g <- add_gate (Arr2 pauli_x) 0 3 ;;
     on_g <- np_matmul on g ;;
     np_add off on_g).
Proof.
  apply (@control_gate_from_add_gate gauss gauss_scalars pauli_x 2%Z 0%Z 3%Z).
  - apply gauss_is_mat22.
  - lia.
  - lia.
  - discriminate.
Defined.

Lemma control_gate_product_witness :
  (op1 <- control_gate (C:=gauss) (Arr2 pauli_x) 0 1 2 ;;
   op2 <- control_gate (Arr2 projector0) 0 1 2 ;; np_matmul op1 op2)
  = (g <- np_matmul (Arr2 pauli_x) (Arr2 projector0) ;; control_gate g 0 1 2).
Proof.
  apply (@control_gate_product gauss gauss_scalars pauli_x projector0 0%Z 1%Z 2%Z).
  - apply gauss_is_mat22.
  - apply gauss_is_mat22.
  - lia.
  - lia.
  - discriminate.
Defined.

Lemma cnot_nonadj_flips_target_witness :
  (op <- cnot_nonadj (C:=gauss) 2 0 3 ;; v <- basis_ket [false; true; true] ;;
   np_matmul op v)
  = basis_ket [true; true; true].
Proof.
  apply (@cnot_nonadj_flips_target gauss gauss_scalars 2%Z 0%Z 3%Z [false; true; true]).
  - lia.
  - lia.
  - discriminate.
  - reflexivity.
Defined.

Lemma cnot_adj_flips_target_witness :
  (op <- cnot_adj (C:=gauss) 0 1 3 ;; v <- basis_ket [true; true; false] ;;
   np_matmul op v)
  = basis_ket [true; false; false].
Proof.
  apply (@cnot_adj_flips_target gauss gauss_scalars 0%Z 3%Z [true; true; false]).
  - lia.
  - lia.
  - reflexivity.
Defined.

Lemma cnot_adj_involution_witness :
  (op <- cnot_adj (C:=gauss) 1 2 3 ;; np_matmul op op) = OK (np_eye 8).
Proof. apply (@cnot_adj_involution gauss gauss_scalars 1%Z 3%Z); lia. Defined.

Lemma cnot_adj_adjacency_only_witness :
  (exists e, cnot_adj (C:=gauss) 0 2 3 = Raise e /\ NotAdjacentError e)
  /\ (exists op, cnot_adj (C:=gauss) 2 3 3 = OK (Arr2 op)
                 /\ shape (Arr2 op) = [16; 16]
                 /\ ((2 < 0)%Z \/ (3 <= 3)%Z -> 3 < 4)).
Proof.
  split.
  - apply (proj1 (@cnot_adj_adjacency_only gauss gauss_scalars 0%Z 2%Z 3%Z)).
    discriminate.
  - apply (proj2 (@cnot_adj_adjacency_only gauss gauss_scalars 2%Z 3%Z 3%Z)).
    reflexivity.
Defined.

Lemma TOFFOLI_validation_witness :
  exists e, TOFFOLI (C:=gauss) 0 1 3 3 = Raise e /\ InvalidQubitError e.
Proof.
  apply (proj1 (@TOFFOLI_validation gauss gauss_scalars 0%Z 1%Z 3%Z 3%Z)).
  right. right. right. left. lia.
Defined.

Lemma TOFFOLI_equal_controls_witness :
  exists op, TOFFOLI (C:=gauss) 0 0 1 2 = OK (Arr2 op)
             /\ shape (Arr2 op) = [8; 8].
Proof.
  apply (@TOFFOLI_equal_controls gauss gauss_scalars 0%Z 1%Z 2%Z).
  - discriminate.
  - lia.
  - lia.
Defined.

Lemma TOFFOLI_flips_target_witness :
  (op <- TOFFOLI (C:=gauss) 3 1 2 4 ;; v <- basis_ket [false; true; true; true] ;;
   np_matmul op v)
  = basis_ket [false; true; false; true].
Proof.
  apply (@TOFFOLI_flips_target gauss gauss_scalars 3%Z 1%Z 2%Z 4%Z
           [false; true; true; true]).
  - discriminate.
  - discriminate.
  - discriminate.
  - lia.
  - lia.
  - lia.
  - reflexivity.
Defined.

Lemma TOFFOLI_involution_witness :
  (op <- TOFFOLI (C:=gauss) 2 0 1 3 ;; np_matmul op op) = OK (np_eye 8).
Proof.
  apply (@TOFFOLI_involution gauss gauss_scalars 2%Z 0%Z 1%Z 3%Z);
    (lia || discriminate).
Defined.

(** The scalar standing for [1/sqrt(2)] is arbitrary here: the theorem
    assumes nothing about it. *)
Lemma generate_ghz_state_any_size_witness :
  @generate_ghz_state gauss gauss_scalars (3, 2)%Z 4
  = OK (Arr1 (@ghz_vector gauss gauss_scalars (3, 2)%Z 4)).
Proof.
  apply (@generate_ghz_state_any_size gauss gauss_scalars (3, 2)%Z 4%Z). lia.
Defined.

Lemma generate_ghz_state_empty_register_witness :
  @generate_ghz_state gauss gauss_scalars (3, 2)%Z 0
  = Raise (IndexError "list index out of range"%string).
Proof.
  apply (@generate_ghz_state_empty_register gauss gauss_scalars (3, 2)%Z 0%Z). lia.
Defined.



Lemma dot_square_closed_witness :
  exists m, dot (C:=gauss) (map Arr2 [pauli_x; projector0; pauli_x]) = OK (Arr2 m)
            /\ shape (Arr2 m) = [2; 2].
Proof.
  apply (@dot_square_closed gauss gauss_scalars 2 [pauli_x; projector0; pauli_x]).
  - lia.
  - repeat constructor; apply gauss_is_mat22.
Defined.



Lemma swap_exchanges_factors_witness :
  (x <- kron (C:=gauss) [Arr2 pauli_x; Arr2 projector0] ;; dot [swap; x; swap])
  = kron [Arr2 projector0; Arr2 pauli_x].
Proof.
  apply (@swap_exchanges_factors gauss gauss_scalars pauli_x projector0);
    apply gauss_is_mat22.
Defined.

Lemma controlled_Z_symmetric_witness :
  control_gate (C:=gauss) Zgate 0 2 3 = control_gate Zgate 2 0 3.
Proof.
  apply (proj1 (@controlled_Z_symmetric gauss gauss_scalars) 0%Z 2%Z 3%Z);
    (lia || discriminate).
Defined.

Lemma controlled_target_past_end_witness :
  control_gate (C:=gauss) (Arr2 pauli_x) 0 2 2
  = Raise (ValueError "operands could not be broadcast together"%string)
  /\ cnot_nonadj (C:=gauss) 0 2 2
     = Raise (ValueError "operands could not be broadcast together"%string).
Proof.
  apply (@controlled_target_past_end gauss gauss_scalars pauli_x 0%Z 2%Z).
  - apply gauss_is_mat22.
  - lia.
Defined.
